(** * mewn: the asset scanner of [lib/ast.go]

    A shallow embedding of [ParseCallExpr], [ParseAssignment], [HasAsset]
    and [GetReferencedAssets], and the properties of the scan that follow
    from the code.

    Go values are rendered as follows.
    - [string] is [string]; a [map[string]T] is a [gmap string T].
    - A [*ReferencedAssets] is an index into a store of bundle objects
      ([heap]): the same pointer sits in [assetMap] and in [result], and the
      visitor closure mutates the object behind it, so the sharing is kept.
    - A [*Group] and a [*ReferencedAsset] point to objects that are never
      written after their creation; they are rendered by value, and the
      nullable [Group] field of an asset by an [option].
    - The [go/ast] nodes are an inductive type with the node kinds the code
      inspects, plus one constructor for every other kind of node.
    - [go/parser] and [path/filepath] are outside this package: they are
      the fields of a record [Platform], over which everything is stated. *)

From stdpp Require Import gmap strings list fin_maps.

Set Warnings "-register-all".
Open Scope string_scope.
Open Scope list_scope.

(** ** Go's library, as far as the code reads it *)

Definition error := string.

Inductive fallible (A : Type) : Type :=
| Ok (a : A)
| Failed (e : error).
Arguments Ok {A} a.
Arguments Failed {A} e.

(** The quote character U+0022, the [old] argument of [strings.Replace]
    in [ParseCallExpr]. *)
Definition dquote : Ascii.ascii := Ascii.ascii_of_nat 34.

Module strings.
(** [strings.Replace(s, old, new, -1)] for a one-byte [old]: every
  occurrence is replaced, left to right. *)
Fixpoint Replace (s : string) (old : Ascii.ascii) (new : string) : string :=
  match s with
  | EmptyString => EmptyString
  | String c s' =>
    if Ascii.eqb c old then new +:+ Replace s' old new
    else String c (Replace s' old new)
  end.
End strings.

Module token.
(** The kinds of basic literal of [go/token]. *)
Inductive Token := INT | FLOAT | IMAG | CHAR | STRING.
End token.

Module ast.
(** Expressions and statements.  [SelectorExpr.Sel] has the static type
  [*ast.Ident], hence a name; every node kind the code does not look
  at is an [Other] node with its children in traversal order. *)
Inductive Tree :=
| Ident (Name : string)
| BasicLit (Kind : token.Token) (Value : string)
| SelectorExpr (X : Tree) (Sel : string)
| CallExpr (Fun : Tree) (Args : list Tree)
| AssignStmt (Lhs : list Tree) (Rhs : list Tree)
| Other (children : list Tree).

(** [*ast.File]: the package clause and the declarations. *)
Record File := mkFile { Name : string; Decls : list Tree }.

(** The interface [ast.Node] as [ast.Inspect] hands it to its callback. *)
Inductive Node :=
| NFile (f : File)
| NTree (t : Tree).

Section Inspect.
Context {S : Type}.
(** The callback gets [None] for the [f(nil)] that closes a node whose
    children were walked. *)
Variable f : option Node → S → S * bool.

(** A node without children: [f(n)], then [f(nil)] if [f] said so. *)
Definition visitLeaf (t : Tree) (s : S) : S :=
  let '(s1, descend) := f (Some (NTree t)) s in
  if descend then fst (f None s1) else s1.

(** [ast.Walk] with the visitor of [ast.Inspect]: depth first, the
    children in source order, none of them when [f] returns false. *)
Fixpoint walk (t : Tree) (s : S) : S :=
  let '(s1, descend) := f (Some (NTree t)) s in
  if descend then
    let walkList :=
      fix walkList (ts : list Tree) (s : S) : S :=
        match ts with
        | [] => s
        | c :: ts' => walkList ts' (walk c s)
        end in
    let s2 :=
      match t with
      | Ident _ => s1
      | BasicLit _ _ => s1
      | SelectorExpr X Sel => visitLeaf (Ident Sel) (walk X s1)
      | CallExpr Fun Args => walkList Args (walk Fun s1)
      | AssignStmt Lhs Rhs => walkList Rhs (walkList Lhs s1)
      | Other children => walkList children s1
      end in
    fst (f None s2)
  else s1.

Definition walkList (ts : list Tree) (s : S) : S :=
  fold_left (λ s c, walk c s) ts s.

(** [ast.Inspect(node, f)] for the [*ast.File] the parser returned: the
    file node, its name, its declarations.  (The comment group that may
    come before the name holds no statement and is left out.) *)
Definition Inspect (file : File) (s : S) : S :=
  let '(s1, descend) := f (Some (NFile file)) s in
  if descend then
    fst (f None (walkList (Decls file) (visitLeaf (Ident (Name file)) s1)))
  else s1.
End Inspect.
End ast.

(** What the scan needs from outside the package. *)
Record Platform := {
  (** [parser.ParseFile(fset, filename, nil, parser.AllErrors)] *)
  ParseFile : string → fallible ast.File;
  (** [filepath.Dir], [filepath.Join] (of two elements), [filepath.Abs] *)
  Dir : string → string;
  Join : string → string → string;
  Abs : string → fallible string;
}.

(** ** The types of [lib/ast.go] *)

Record Group := mkGroup {
  GroupName : string;      (* Group.Name *)
  LocalPath : string;
  FullPath : string;
}.

Record ReferencedAsset := mkReferencedAsset {
  Name : string;
  AssetPath : string;
  AssetGroup : option Group;   (* ReferencedAsset.Group, nil = None *)
}.

Record ReferencedAssets := mkReferencedAssets {
  Caller : string;
  PackageName : string;
  BaseDir : string;
  Assets : list ReferencedAsset;
  Groups : list Group;
}.

Record CallStmt := mkCallStmt {
  Obj : string;
  Method : string;
  Path : string;
}.

Record AssignStmt := mkAssignStmt {
  LHS : string;
  RHS : CallStmt;
}.

(** ** [HasAsset] *)

Fixpoint hasName (assets : list ReferencedAsset) (name : string) : bool :=
  match assets with
  | [] => false
  | asset :: rest =>
      if decide (Name asset = name) then true else hasName rest name
  end.

Definition HasAsset (r : ReferencedAssets) (name : string) : bool :=
  hasName (Assets r) name.

(** ** [ParseCallExpr] and [ParseAssignment]

    Both take the fields of the node they are given. *)

Definition ParseCallExpr (Fun : ast.Tree) (Args : list ast.Tree)
  : option CallStmt :=
  if decide (length Args ≠ 1) then None
  else
    match Fun with
    | ast.SelectorExpr fnX fnSel =>
        match fnX with
        | ast.Ident obj =>
            (* fn.Sel is an *ast.Ident by its type *)
            let fnCallName := fnSel in
            match Args with
            | ast.BasicLit _ Value :: _ =>
                let assetPath := strings.Replace Value dquote "" in
                Some {| Obj := obj; Method := fnCallName; Path := assetPath |}
            | _ => None
            end
        | _ => None
        end
    | _ => None
    end.

Definition ParseAssignment (Lhs Rhs : list ast.Tree) : option AssignStmt :=
  let lhs :=
    match Lhs with
    | [ast.Ident name] => name
    | _ => ""
    end in
  match Rhs with
  | [ast.CallExpr Fun Args] =>
      match ParseCallExpr Fun Args with
      | Some call => Some {| LHS := lhs; RHS := call |}
      | None => None
      end
  | _ => None
  end.


(** ** The [String] methods *)

(** [fmt.Sprintf("{ obj: '%s', method: '%s', path: '%s' }", c.Obj,
    c.Method, c.Path)] *)
Definition CallStmt_String (c : CallStmt) : string :=
  "{ obj: '" +:+ Obj c +:+ "', method: '" +:+ Method c +:+ "', path: '" +:+
  Path c +:+ "' }".

(** [fmt.Sprintf("%s = %s", a.LHS, a.RHS)]: [a.RHS] is a [*CallStmt], which
    has a [String] method, and [%s] prints it with that method. *)
Definition AssignStmt_String (a : AssignStmt) : string :=
  LHS a +:+ " = " +:+ CallStmt_String (RHS a).

(** ** [GetReferencedAssets]

    The variables of the function, which its visitor closure shares:
    [heap] holds the [ReferencedAssets] objects allocated so far, a
    [*ReferencedAssets] being the index of its object; [err] and
    [packageName] are declared anew in each iteration of the loop. *)

Abbreviation ptr := nat (only parsing).

Record Frame := mkFrame {
  heap : list ReferencedAssets;
  result : list ptr;
  assetMap : gmap string ptr;
  groups : gmap string Group;
  err : option error;
  packageName : string;
}.

(** [var result []*ReferencedAssets], two [make(map...)], nothing allocated. *)
Definition entry : Frame :=
  {| heap := []; result := []; assetMap := ∅; groups := ∅;
     err := None; packageName := "" |}.

(** Writes through a [*ReferencedAssets]. *)
Definition setPackageName (name : string) (b : ReferencedAssets)
  : ReferencedAssets :=
  {| Caller := Caller b; PackageName := name; BaseDir := BaseDir b;
     Assets := Assets b; Groups := Groups b |}.

Definition appendGroup (g : Group) (b : ReferencedAssets) : ReferencedAssets :=
  {| Caller := Caller b; PackageName := PackageName b; BaseDir := BaseDir b;
     Assets := Assets b; Groups := Groups b ++ [g] |}.

Definition appendAsset (a : ReferencedAsset) (b : ReferencedAssets)
  : ReferencedAssets :=
  {| Caller := Caller b; PackageName := PackageName b; BaseDir := BaseDir b;
     Assets := Assets b ++ [a]; Groups := Groups b |}.

Definition store (p : ptr) (f : ReferencedAssets → ReferencedAssets)
  (s : Frame) : Frame :=
  {| heap := alter f p (heap s); result := result s; assetMap := assetMap s;
     groups := groups s; err := err s; packageName := packageName s |}.

Definition setGroup (name : string) (g : Group) (s : Frame) : Frame :=
  {| heap := heap s; result := result s; assetMap := assetMap s;
     groups := <[name := g]> (groups s); err := err s;
     packageName := packageName s |}.

Definition setErr (e : option error) (s : Frame) : Frame :=
  {| heap := heap s; result := result s; assetMap := assetMap s;
     groups := groups s; err := e; packageName := packageName s |}.

Definition setLocalPackageName (name : string) (s : Frame) : Frame :=
  {| heap := heap s; result := result s; assetMap := assetMap s;
     groups := groups s; err := err s; packageName := name |}.

(** [&ReferencedAssets{Caller: filename, BaseDir: baseDir}] stored under
    [assetMap[baseDir]]; the new object gets the next free index. *)
Definition newBundle (filename baseDir : string) (s : Frame) : ptr * Frame :=
  let p := length (heap s) in
  (p,
   {| heap := heap s ++ [ {| Caller := filename; PackageName := "";
                             BaseDir := baseDir; Assets := [];
                             Groups := [] |} ];
      result := result s; assetMap := <[baseDir := p]> (assetMap s);
      groups := groups s; err := err s; packageName := packageName s |}).

Definition pushResult (p : ptr) (s : Frame) : Frame :=
  {| heap := heap s; result := result s ++ [p]; assetMap := assetMap s;
     groups := groups s; err := err s; packageName := packageName s |}.

(** [case "String", "MustString", "Bytes", "MustBytes":] *)
Definition assetMethods : list string :=
  ["String"; "MustString"; "Bytes"; "MustBytes"].

Section Scan.
Variable P : Platform.

(** The function literal handed to [ast.Inspect]; [filename] and
    [thisAssetBundle] are the captured variables that it only reads. *)
Definition visit (filename : string) (thisAssetBundle : ptr)
  (node : option ast.Node) (s : Frame) : Frame * bool :=
  match node with
  | Some (ast.NFile x) =>
      let s := setLocalPackageName (ast.Name x) s in
      (store thisAssetBundle (setPackageName (packageName s)) s, true)
  | Some (ast.NTree (ast.AssignStmt Lhs Rhs)) =>
      match ParseAssignment Lhs Rhs with
      | Some thisAsset =>
          let objName := Obj (RHS thisAsset) in
          if decide (objName = "mewn") then
            if decide (Method (RHS thisAsset) = "Group") then
              let baseDir := Dir P filename in
              match Abs P (Join P baseDir (Path (RHS thisAsset))) with
              | Failed _ => (s, false)
              | Ok fullPath =>
                  let thisGroup :=
                    {| GroupName := LHS thisAsset;
                       LocalPath := Path (RHS thisAsset);
                       FullPath := fullPath |} in
                  (setGroup (LHS thisAsset) thisGroup
                     (store thisAssetBundle (appendGroup thisGroup) s),
                   true)
              end
            else if decide (Method (RHS thisAsset) ∈ assetMethods) then
              let newAsset :=
                {| Name := Path (RHS thisAsset); AssetGroup := None;
                   AssetPath := Path (RHS thisAsset) |} in
              (store thisAssetBundle (appendAsset newAsset) s, true)
            else
              (setErr (Some ("unknown call to mewn." +:+
                             Method (RHS thisAsset))) s,
               false)
          else
            match groups s !! objName with
            | Some group =>
                let newAsset :=
                  {| Name := Path (RHS thisAsset); AssetGroup := Some group;
                     AssetPath := Path (RHS thisAsset) |} in
                (store thisAssetBundle (appendAsset newAsset) s, true)
            | None => (s, true)
            end
      | None => (s, true)
      end
  | _ => (s, true)
  end.

(** One iteration of [for _, filename := range filenames]; [Failed] is the
    [return nil, err] that leaves the function. *)
Definition processFile (filename : string) (s : Frame) : fallible Frame :=
  match ParseFile P filename with
  | Failed e => Failed e
  | Ok node =>
      let s := setLocalPackageName "" (setErr None s) in
      let baseDir := Dir P filename in
      let '(thisAssetBundle, s) :=
        match assetMap s !! baseDir with
        | Some p => (p, s)
        | None => newBundle filename baseDir s
        end in
      let s := ast.Inspect (visit filename thisAssetBundle) node s in
      Ok (pushResult thisAssetBundle s)
  end.

Fixpoint scan (filenames : list string) (s : Frame) : fallible Frame :=
  match filenames with
  | [] => Ok s
  | filename :: rest =>
      match processFile filename s with
      | Failed e => Failed e
      | Ok s' => scan rest s'
      end
  end.

(** What the caller gets: the two results of the Go function, and the
    objects its pointers refer to (none when the slice is nil). *)
Record Returned := mkReturned {
  objects : list ReferencedAssets;
  bundles : list ptr;
  failure : option error;
}.

Definition GetReferencedAssets (filenames : list string) : Returned :=
  match scan filenames entry with
  | Failed e => {| objects := []; bundles := []; failure := Some e |}
  | Ok s => {| objects := heap s; bundles := result s; failure := None |}
  end.

End Scan.

(** The bundles of the returned slice, one per element. *)
Definition listing (r : Returned) : list (option ReferencedAssets) :=
  (λ p, objects r !! p) <$> bundles r.


(** ** Concrete programs and platforms

    Source text is written with these constructors: [quoted "a.txt"] is the
    [Value] of the string literal, quotes included; [call "mewn" "String"
    "a.txt"] is the expression; [assign "s" e] is [s := e]; [funcDecl]
    wraps statements in a function declaration. *)

Definition quoted (s : string) : string :=
  String dquote (s +:+ String dquote "").

Definition call (obj method lit : string) : ast.Tree :=
  ast.CallExpr (ast.SelectorExpr (ast.Ident obj) method)
    [ast.BasicLit token.STRING (quoted lit)].

Definition assign (x : string) (rhs : ast.Tree) : ast.Tree :=
  ast.AssignStmt [ast.Ident x] [rhs].

(** [func name() { body }]: the name, the (empty) signature, the block. *)
Definition funcDecl (name : string) (body : list ast.Tree) : ast.Tree :=
  ast.Other [ast.Ident name; ast.Other []; ast.Other body].

Definition source (pkg : string) (body : list ast.Tree) : ast.File :=
  {| ast.Name := pkg; ast.Decls := [funcDecl "main" body] |}.

(** A file system given by a table; a name that is not in it does not
    parse (it cannot be read). *)
Fixpoint parseIn (files : list (string * fallible ast.File))
  (filename : string) : fallible ast.File :=
  match files with
  | [] => Failed ("open " +:+ filename +:+ ": no such file or directory")
  | (n, r) :: rest => if decide (n = filename) then r else parseIn rest filename
  end.

(** [filepath.Dir] on a clean relative path [d/f] or [f] (slash
    separated): all before the last slash, or [.] without one. *)
Definition slash : Ascii.ascii := Ascii.ascii_of_nat 47.

Fixpoint lastSlash (s : string) : option nat :=
  match s with
  | EmptyString => None
  | String c s' =>
      match lastSlash s' with
      | Some i => Some (S i)
      | None => if Ascii.eqb c slash then Some 0 else None
      end
  end.

Definition unixDir (path : string) : string :=
  match lastSlash path with
  | Some i => String.substring 0 i path
  | None => "."
  end.

(** [filepath.Join] of a clean directory and a clean relative path. *)
Definition unixJoin (a b : string) : string :=
  if decide (a = ".") then b else a +:+ "/" +:+ b.

(** [filepath.Abs] of a clean relative path prefixes the working
    directory, and fails when [os.Getwd] does. *)
Definition unixAbs (wd : fallible string) (path : string) : fallible string :=
  match wd with
  | Ok d => Ok (d +:+ "/" +:+ path)
  | Failed e => Failed e
  end.

Definition unix (wd : fallible string)
  (files : list (string * fallible ast.File)) : Platform :=
  {| ParseFile := parseIn files; Dir := unixDir; Join := unixJoin;
     Abs := unixAbs wd |}.

Definition home : fallible string := Ok "/home/u".
Definition nowhere : fallible string := Failed "getwd: no such file or directory".

(** Two files of one directory, with different package clauses (a
    package and its external test package), and a file of another
    directory. *)
Definition twoInOneDir : list (string * fallible ast.File) :=
  [("a/x.go", Ok (source "a" [assign "s" (call "mewn" "String" "x.txt")]));
   ("a/x_test.go",
    Ok (source "a_test" [assign "t" (call "mewn" "String" "y.txt")]));
   ("b/z.go", Ok (source "b" [assign "u" (call "mewn" "Bytes" "z.bin")]))].

(** A file that does not parse between two that do. *)
Definition withBadFile : list (string * fallible ast.File) :=
  [("a/x.go", Ok (source "a" [assign "s" (call "mewn" "String" "x.txt")]));
   ("a/bad.go", Failed "a/bad.go:3:1: expected declaration, found '}'");
   ("b/z.go", Ok (source "b" [assign "u" (call "mewn" "Bytes" "z.bin")]))].

(** [x := mewn.Unknown("x")], then [s := mewn.String("a.txt")]. *)
Definition unknownMethod : list (string * fallible ast.File) :=
  [("a/x.go", Ok (source "a" [assign "x" (call "mewn" "Unknown" "x");
                              assign "s" (call "mewn" "String" "a.txt")]))].

(** The same asset declared twice in one file. *)
Definition sameNameTwice : list (string * fallible ast.File) :=
  [("a/x.go", Ok (source "a" [assign "s" (call "mewn" "String" "a.txt");
                              assign "t" (call "mewn" "String" "a.txt")]))].

(** [g := mewn.Group("dir")], then [s := mewn.String("a.txt")]. *)
Definition groupThenAsset : list (string * fallible ast.File) :=
  [("a/x.go", Ok (source "a" [assign "g" (call "mewn" "Group" "dir");
                              assign "s" (call "mewn" "String" "a.txt")]))].

(** [g := mewn.Group("dir")] before, and after, [s := g.String("x.txt")];
    and a second file that declares [g] again and uses it. *)
Definition groupFiles : list (string * fallible ast.File) :=
  [("a/decl.go", Ok (source "a" [assign "g" (call "mewn" "Group" "dir");
                                 assign "s" (call "g" "String" "x.txt")]));
   ("a/late.go", Ok (source "a" [assign "s" (call "g" "String" "x.txt");
                                 assign "g" (call "mewn" "Group" "dir")]));
   ("b/again.go", Ok (source "b" [assign "g" (call "mewn" "Group" "other");
                                  assign "t" (call "g" "Bytes" "y.bin")]))].

(** The frame in the middle of [a/decl.go], after the declaration of [g]. *)
Definition afterDeclaration : Frame :=
  fst (visit (unix home groupFiles) "a/decl.go" 0
         (Some (ast.NTree (assign "g" (call "mewn" "Group" "dir"))))
         (snd (newBundle "a/decl.go" "a" entry))).

Definition declaredGroup : Group :=
  {| GroupName := "g"; LocalPath := "dir"; FullPath := "/home/u/a/dir" |}.

Definition bundleOfDecl : ReferencedAssets :=
  {| Caller := "a/decl.go"; PackageName := ""; BaseDir := "a";
     Assets := []; Groups := [declaredGroup] |}.

(** ** Notions used in the statements *)

(** [c] occurs in [s]. *)
Fixpoint contains (s : string) (c : Ascii.ascii) : bool :=
  match s with
  | EmptyString => false
  | String c' s' => if Ascii.eqb c' c then true else contains s' c
  end.

(** The children of a node, walked in order. *)
Definition walkChildren {S : Type} (f : option ast.Node → S → S * bool)
  (t : ast.Tree) (s : S) : S :=
  match t with
  | ast.Ident _ => s
  | ast.BasicLit _ _ => s
  | ast.SelectorExpr X Sel => ast.visitLeaf f (ast.Ident Sel) (ast.walk f X s)
  | ast.CallExpr Fun Args => ast.walkList f Args (ast.walk f Fun s)
  | ast.AssignStmt Lhs Rhs => ast.walkList f Rhs (ast.walkList f Lhs s)
  | ast.Other children => ast.walkList f children s
  end.

(** The part of the frame that only the loop itself writes. *)
Definition layout (s : Frame)
  : list string * list string * gmap string nat * list nat :=
  (Caller <$> heap s, BaseDir <$> heap s, assetMap s, result s).

(** Lines 66 to 71: the bundle of the file's directory, made on the first
    file of that directory. *)
Definition bundleOf (P : Platform) (filename : string) (s : Frame)
  : nat * Frame :=
  match assetMap s !! Dir P filename with
  | Some p => (p, s)
  | None => newBundle filename (Dir P filename) s
  end.

(** The directories of a list of files, each once, in the order in which
    they first occur. *)
Definition firstEncounter (dirs : list string) : list string :=
  fold_left (λ (acc : list string) d,
             if decide (d ∈ acc) then acc else (acc ++ [d])%list) dirs [].

(** What holds between the iterations, [pre] being the files done. *)
Record scanned (P : Platform) (pre : list string) (s : Frame) : Prop := {
  scanned_heap : BaseDir <$> heap s = firstEncounter (Dir P <$> pre);
  scanned_map : ∀ d p,
    assetMap s !! d = Some p ↔ (BaseDir <$> heap s) !! p = Some d;
  scanned_result :
    Forall2 (λ f p, (BaseDir <$> heap s) !! p = Some (Dir P f)) pre (result s);
}.


(** The parser accepts the file. *)
Definition parses (P : Platform) (filename : string) : Prop :=
  ∃ node, ParseFile P filename = Ok node.

(** Every entry of the table of groups comes from a declaration: it is
    filed under the name of the group, and the group is in the [Groups] of
    a bundle. *)
Definition registered (s : Frame) : Prop :=
  ∀ name g, groups s !! name = Some g →
    GroupName g = name ∧ ∃ q b, heap s !! q = Some b ∧ g ∈ Groups b.

(** No bundle has lost a group, from [s] to [s']. *)
Definition grows (s s' : Frame) : Prop :=
  ∀ q b, heap s !! q = Some b →
    ∃ b', heap s' !! q = Some b' ∧ ∀ g, g ∈ Groups b → g ∈ Groups b'.

(** The characters that delimit the fields in the [String] methods. *)
Definition apostrophe : Ascii.ascii := Ascii.ascii_of_nat 39.
Definition space : Ascii.ascii := Ascii.ascii_of_nat 32.

(** Some assignment statement of the tree is matched by
    [ParseAssignment]. *)
Fixpoint matched (t : ast.Tree) : bool :=
  match t with
  | ast.Ident _ => false
  | ast.BasicLit _ _ => false
  | ast.SelectorExpr X _ => matched X
  | ast.CallExpr Fun Args => matched Fun || existsb matched Args
  | ast.AssignStmt Lhs Rhs =>
      match ParseAssignment Lhs Rhs with
      | Some _ => true
      | None => existsb matched Lhs || existsb matched Rhs
      end
  | ast.Other children => existsb matched children
  end.

(** An asset, and a group, as the visitor makes them in frame [s] while it
    walks [filename]. *)
Definition freshAsset (s : Frame) (a : ReferencedAsset) : Prop :=
  Name a = AssetPath a ∧ contains (Name a) dquote = false ∧
  ∀ g, AssetGroup a = Some g →
       ∃ name, name ≠ "mewn" ∧ groups s !! name = Some g.

Definition freshGroup (P : Platform) (filename : string) (g : Group) : Prop :=
  Abs P (Join P (Dir P filename) (LocalPath g)) = Ok (FullPath g) ∧
  contains (LocalPath g) dquote = false.

(** What holds of the bundles and of the table of groups during a scan. *)
Record sound (P : Platform) (s : Frame) : Prop := {
  sound_registered : registered s;
  sound_assets : ∀ q b a, heap s !! q = Some b → a ∈ Assets b →
    Name a = AssetPath a ∧ contains (Name a) dquote = false ∧
    ∀ g, AssetGroup a = Some g →
         GroupName g ≠ "mewn" ∧ ∃ q' c, heap s !! q' = Some c ∧ g ∈ Groups c;
  sound_groups : ∀ q b g, heap s !! q = Some b → g ∈ Groups b →
    Abs P (Join P (BaseDir b) (LocalPath g)) = Ok (FullPath g) ∧
    contains (LocalPath g) dquote = false;
}.

(** From [s] to [s'] the result and every bundle have only been
    appended to. *)
Definition extends (s s' : Frame) : Prop :=
  result s `prefix_of` result s' ∧
  ∀ q b, heap s !! q = Some b →
    ∃ b', heap s' !! q = Some b' ∧ Caller b' = Caller b ∧
          BaseDir b' = BaseDir b ∧ Assets b `prefix_of` Assets b' ∧
          Groups b `prefix_of` Groups b'.

(** Where the [Caller] and the [PackageName] of a bundle come from, [pre]
    being the files done: the first file of the directory, and the last. *)
Definition firstFile (P : Platform) (pre : list string)
  (b : ReferencedAssets) : Prop :=
  ∃ i, pre !! i = Some (Caller b) ∧ Dir P (Caller b) = BaseDir b ∧
       ∀ j f, j < i → pre !! j = Some f → Dir P f ≠ BaseDir b.

Definition lastFile (P : Platform) (pre : list string)
  (b : ReferencedAssets) : Prop :=
  ∃ i f node, pre !! i = Some f ∧ Dir P f = BaseDir b ∧
       ParseFile P f = Ok node ∧ PackageName b = ast.Name node ∧
       ∀ j f', i < j → pre !! j = Some f' → Dir P f' ≠ BaseDir b.

Definition provenance (P : Platform) (pre : list string) (s : Frame) : Prop :=
  ∀ q b, heap s !! q = Some b → firstFile P pre b ∧ lastFile P pre b.

(** Every bundle object is in the result. *)
Definition listed (s : Frame) : Prop :=
  ∀ q, q < length (heap s) → q ∈ result s.

(** The node is a declaration of a group under [name]: an assignment
    matched as [name = mewn.Group(...)]. *)
Definition declaredBy (name : string) (node : option ast.Node) : bool :=
  match node with
  | Some (ast.NTree (ast.AssignStmt Lhs Rhs)) =>
      match ParseAssignment Lhs Rhs with
      | Some a =>
          bool_decide (Obj (RHS a) = "mewn" ∧ Method (RHS a) = "Group" ∧
                       LHS a = name)
      | None => false
      end
  | _ => false
  end.

(** The tree holds such a declaration, at any depth. *)
Fixpoint declares (name : string) (t : ast.Tree) : bool :=
  match t with
  | ast.Ident _ => false
  | ast.BasicLit _ _ => false
  | ast.SelectorExpr X _ => declares name X
  | ast.CallExpr Fun Args => declares name Fun || existsb (declares name) Args
  | ast.AssignStmt Lhs Rhs =>
      declaredBy name (Some (ast.NTree t)) ||
      existsb (declares name) Lhs || existsb (declares name) Rhs
  | ast.Other children => existsb (declares name) children
  end.

(** [s'] comes after [s] in the order of processing, and nothing processed
    from [s] to [s'] is a declaration of a group under [name].  The steps
    are those of the code: one call of the visitor, the walk of a subtree,
    the start of an iteration of the loop (lines 63 to 71), its end (line
    114), and a whole iteration. *)
Inductive undisturbed (P : Platform) (name : string) : Frame → Frame → Prop :=
| undisturbed_refl s : undisturbed P name s s
| undisturbed_visit s s' filename p node :
    undisturbed P name s s' → declaredBy name node = false →
    undisturbed P name s (fst (visit P filename p node s'))
| undisturbed_walk s s' filename p t :
    undisturbed P name s s' → declares name t = false →
    undisturbed P name s (ast.walk (visit P filename p) t s')
| undisturbed_enter s s' filename :
    undisturbed P name s s' →
    undisturbed P name s
      (snd (bundleOf P filename (setLocalPackageName "" (setErr None s'))))
| undisturbed_leave s s' p :
    undisturbed P name s s' → undisturbed P name s (pushResult p s')
| undisturbed_file s s' s'' filename node :
    undisturbed P name s s' → ParseFile P filename = Ok node →
    existsb (declares name) (ast.Decls node) = false →
    processFile P filename s' = Ok s'' → undisturbed P name s s''.

(** ** The matchers *)

Lemma append_String a (s t : string) : String a s +:+ t = String a (s +:+ t).
Proof. reflexivity. Qed.

Lemma Replace_closing_quote s :
  contains s dquote = false →
  strings.Replace (s +:+ String dquote "") dquote "" = s.
Proof.
  induction s as [|a s IH]; [done|].
  rewrite append_String. cbn [contains strings.Replace].
  destruct (Ascii.eqb a dquote); [done|]. intros H. by rewrite IH.
Qed.

Lemma Replace_quoted s :
  contains s dquote = false → strings.Replace (quoted s) dquote "" = s.
Proof.
  intros H. unfold quoted. cbn [strings.Replace].
  rewrite Ascii.eqb_refl. by apply Replace_closing_quote.
Qed.

Lemma ParseCallExpr_Some Fun Args c :
  ParseCallExpr Fun Args = Some c ↔
  ∃ obj method kind value,
    Fun = ast.SelectorExpr (ast.Ident obj) method ∧
    Args = [ast.BasicLit kind value] ∧
    c = {| Obj := obj; Method := method;
           Path := strings.Replace value dquote "" |}.
Proof.
  unfold ParseCallExpr. split.
  - case_decide as Hlen; [done|].
    destruct Fun as [| |X Sel| | |]; try done.
    destruct X as [obj| | | | |]; try done.
    destruct Args as [|[|kind value| | | |] [|? ?]]; try done;
      simpl in Hlen; try lia.
    intros [= <-]. by exists obj, Sel, kind, value.
  - intros (obj & method & kind & value & -> & -> & ->). done.
Qed.

(** C7, as the code has it.  A call matches exactly when its function is
    [obj.method] with [obj] an identifier and its single argument is a basic
    literal of any kind (a number as well as a string); the path is the
    text of the literal with every double-quote character removed, which
    for a double-quoted literal without an inner quote character is the
    text between the quotes. *)
Theorem ParseCallExpr_matches_basic_literal :
  (∀ Fun Args c,
     ParseCallExpr Fun Args = Some c ↔
     ∃ obj method kind value,
       Fun = ast.SelectorExpr (ast.Ident obj) method ∧
       Args = [ast.BasicLit kind value] ∧
       c = {| Obj := obj; Method := method;
              Path := strings.Replace value dquote "" |}) ∧
  (∀ obj method kind s,
     contains s dquote = false →
     ParseCallExpr (ast.SelectorExpr (ast.Ident obj) method)
       [ast.BasicLit kind (quoted s)]
     = Some {| Obj := obj; Method := method; Path := s |}).
Proof.
  split; [apply ParseCallExpr_Some|].
  intros obj method kind s Hs. apply ParseCallExpr_Some.
  exists obj, method, kind, (quoted s). by rewrite Replace_quoted.
Qed.

Lemma ParseCallExpr_matches_basic_literal_witness :
  ParseCallExpr (ast.SelectorExpr (ast.Ident "mewn") "String")
    [ast.BasicLit token.STRING (quoted "a/b.txt")]
  = Some {| Obj := "mewn"; Method := "String"; Path := "a/b.txt" |}.
Proof.
  apply (proj2 ParseCallExpr_matches_basic_literal
           "mewn" "String" token.STRING "a/b.txt").
  reflexivity.
Defined.

(** C7 fails on [mewn.String(42)]: the argument is an integer literal, and
    the call is matched with the path [42]. *)
Lemma ParseCallExpr_integer_argument :
  let arg := ast.BasicLit token.INT "42" in
  (∀ value, arg ≠ ast.BasicLit token.STRING value) ∧
  ParseCallExpr (ast.SelectorExpr (ast.Ident "mewn") "String") [arg]
  = Some {| Obj := "mewn"; Method := "String"; Path := "42" |}.
Proof. split; [intros value [=]|reflexivity]. Qed.

(** Nor are only the surrounding quotes removed: in the literal written
    [quote a backslash quote b quote] the inner quote goes too, and the
    backslash stays. *)
Example ParseCallExpr_inner_quote :
  let bs := String (Ascii.ascii_of_nat 92) "" in
  ParseCallExpr (ast.SelectorExpr (ast.Ident "mewn") "String")
    [ast.BasicLit token.STRING (quoted ("a" +:+ bs +:+ String dquote "b"))]
  = Some {| Obj := "mewn"; Method := "String"; Path := "a" +:+ bs +:+ "b" |}.
Proof. reflexivity. Qed.

(** C5, as the code has it.  An assignment matches exactly when it has one
    right-hand side, a call that [ParseCallExpr] matches; the left-hand
    side decides nothing: [LHS] is the name of a single left-hand
    identifier, and the empty string for any other left-hand side. *)
Theorem ParseAssignment_matches_single_call Lhs Rhs r :
  ParseAssignment Lhs Rhs = Some r ↔
  ∃ Fun Args call,
    Rhs = [ast.CallExpr Fun Args] ∧
    ParseCallExpr Fun Args = Some call ∧
    RHS r = call ∧
    ((∃ name, Lhs = [ast.Ident name] ∧ LHS r = name) ∨
     ((∀ name, Lhs ≠ [ast.Ident name]) ∧ LHS r = "")).
Proof.
  unfold ParseAssignment. split.
  - destruct Rhs as [|[| | |Fun Args| |] [|? ?]]; try done.
    destruct (ParseCallExpr Fun Args) as [call|] eqn:Hcall; [|done].
    intros [= <-]. exists Fun, Args, call. repeat split; try done.
    destruct Lhs as [|[name| | | | |] [|? ?]];
      solve [ left; by eexists | right; split; [by intros ? [=]|done] ].
  - intros (Fun & Args & call & -> & Hcall & Hr & Hl). rewrite Hcall.
    destruct r as [l c]; simpl in *. subst c. f_equal. f_equal.
    destruct Hl as [(name & -> & <-)|[Hno <-]]; [done|].
    destruct Lhs as [|[name| | | | |] [|? ?]]; try done.
    by destruct (Hno name).
Qed.

(** C5 fails on [a, b := mewn.String("x.txt")]: two targets, and the
    statement is matched, with an empty [LHS]. *)
Lemma ParseAssignment_two_targets :
  let Lhs := [ast.Ident "a"; ast.Ident "b"] in
  length Lhs ≠ 1 ∧
  ParseAssignment Lhs [call "mewn" "String" "x.txt"]
  = Some {| LHS := "";
            RHS := {| Obj := "mewn"; Method := "String"; Path := "x.txt" |} |}.
Proof. split; [simpl; lia|reflexivity]. Qed.

(** The same for a left-hand side that is not an identifier:
    [cfg.logo = mewn.String("x.txt")]. *)
Example ParseAssignment_selector_target :
  ParseAssignment [ast.SelectorExpr (ast.Ident "cfg") "logo"]
    [call "mewn" "String" "x.txt"]
  = Some {| LHS := "";
            RHS := {| Obj := "mewn"; Method := "String"; Path := "x.txt" |} |}.
Proof. reflexivity. Qed.

(** ** The traversal *)

Lemma Tree_nested_ind (Q : ast.Tree → Prop) :
  (∀ name, Q (ast.Ident name)) →
  (∀ kind value, Q (ast.BasicLit kind value)) →
  (∀ X Sel, Q X → Q (ast.SelectorExpr X Sel)) →
  (∀ Fun Args, Q Fun → Forall Q Args → Q (ast.CallExpr Fun Args)) →
  (∀ Lhs Rhs, Forall Q Lhs → Forall Q Rhs → Q (ast.AssignStmt Lhs Rhs)) →
  (∀ children, Forall Q children → Q (ast.Other children)) →
  ∀ t, Q t.
Proof.
  intros HI HB HS HC HA HO. fix IH 1.
  assert (∀ ts, Forall Q ts) as IHs.
  { fix IHs 1. intros [|t ts]; constructor; [apply IH|apply IHs]. }
  intros [name|kind value|X Sel|Fun Args|Lhs Rhs|children].
  - apply HI.
  - apply HB.
  - apply HS, IH.
  - apply HC; [apply IH|apply IHs].
  - apply HA; apply IHs.
  - apply HO, IHs.
Qed.

Lemma walk_unfold {S : Type} (f : option ast.Node → S → S * bool) t s :
  ast.walk f t s =
  if snd (f (Some (ast.NTree t)) s)
  then fst (f None (walkChildren f t (fst (f (Some (ast.NTree t)) s))))
  else fst (f (Some (ast.NTree t)) s).
Proof.
  assert (∀ ts s0,
    (fix walkList (ts : list ast.Tree) (s : S) {struct ts} : S :=
       match ts with
       | [] => s
       | c :: ts' => walkList ts' (ast.walk f c s)
       end) ts s0 = ast.walkList f ts s0) as Hfix.
  { induction ts as [|c ts IH]; intros s0; [done|]. simpl. by rewrite IH. }
  destruct t; simpl; destruct (f _ s) as [s1 [|]]; simpl;
    rewrite ?Hfix; reflexivity.
Qed.

Lemma walkList_cons {S : Type} (f : option ast.Node → S → S * bool) t ts s :
  ast.walkList f (t :: ts) s = ast.walkList f ts (ast.walk f t s).
Proof. reflexivity. Qed.

Lemma walkList_app {S : Type} (f : option ast.Node → S → S * bool) ts us s :
  ast.walkList f (ts ++ us) s = ast.walkList f us (ast.walkList f ts s).
Proof. unfold ast.walkList. apply fold_left_app. Qed.

Section Preserved.
Context {S : Type} (f : option ast.Node → S → S * bool) (I : S → Prop).
Hypothesis step_tree : ∀ t s, I s → I (fst (f (Some (ast.NTree t)) s)).
Hypothesis step_nil : ∀ s, I s → I (fst (f None s)).

Lemma visitLeaf_preserves t s : I s → I (ast.visitLeaf f t s).
Proof.
  intros Hs. unfold ast.visitLeaf.
  pose proof (step_tree t s Hs) as H1.
  destruct (f (Some (ast.NTree t)) s) as [s1 [|]]; simpl in *; [|done].
  by apply step_nil.
Qed.

Lemma walkList_preserves ts :
  Forall (λ t, ∀ s, I s → I (ast.walk f t s)) ts →
  ∀ s, I s → I (ast.walkList f ts s).
Proof.
  induction 1 as [|t ts Ht _ IH]; intros s Hs; [done|].
  rewrite walkList_cons. by apply IH, Ht.
Qed.

Lemma walk_preserves t : ∀ s, I s → I (ast.walk f t s).
Proof.
  induction t as [name|kind value|X Sel IHX|Fun Args IHF IHA|Lhs Rhs IHL IHR
                 |children IHc] using Tree_nested_ind;
    intros s Hs; rewrite walk_unfold;
    match goal with
    | |- context [f (Some (ast.NTree ?t)) s] =>
        pose proof (step_tree t s Hs) as H1;
        destruct (snd (f (Some (ast.NTree t)) s)); [apply step_nil|done]
    end;
    simpl.
  - done.
  - done.
  - by apply visitLeaf_preserves, IHX.
  - by apply walkList_preserves, IHF.
  - apply walkList_preserves; [done|]. by apply walkList_preserves.
  - by apply walkList_preserves.
Qed.

Lemma walkList_preserves_all ts s : I s → I (ast.walkList f ts s).
Proof.
  apply walkList_preserves, Forall_forall. intros t _. apply walk_preserves.
Qed.

(** After the callback has seen the file node itself. *)
Lemma Inspect_preserves_from file s :
  I (fst (f (Some (ast.NFile file)) s)) → I (ast.Inspect f file s).
Proof.
  intros H1. unfold ast.Inspect.
  destruct (f (Some (ast.NFile file)) s) as [s1 [|]]; simpl in *; [|done].
  by apply step_nil, walkList_preserves_all, visitLeaf_preserves.
Qed.
End Preserved.


(** ** What the visitor leaves alone *)

Lemma fmap_alter_same {A B : Type} (proj : A → B) (g : A → A) (i : nat)
  (l : list A) :
  (∀ x, proj (g x) = proj x) → proj <$> alter g i l = proj <$> l.
Proof.
  intros H. revert i. induction l as [|x l IH]; intros [|i]; simpl; [done..| |].
  - by rewrite H.
  - f_equal. apply IH.
Qed.

Lemma store_layout p g s :
  (∀ b, Caller (g b) = Caller b) → (∀ b, BaseDir (g b) = BaseDir b) →
  layout (store p g s) = layout s.
Proof.
  intros HC HB. unfold layout, store. simpl.
  by rewrite !fmap_alter_same.
Qed.

Lemma visit_nil P filename p s : visit P filename p None s = (s, true).
Proof. reflexivity. Qed.

Lemma visit_layout P filename p node s :
  layout (fst (visit P filename p node s)) = layout s.
Proof.
  unfold visit. repeat case_match; simpl; try done;
    by (apply store_layout || (unfold layout; simpl; rewrite !fmap_alter_same)).
Qed.

Lemma Inspect_layout P filename p file s :
  layout (ast.Inspect (visit P filename p) file s) = layout s.
Proof.
  apply (Inspect_preserves_from _ (λ s', layout s' = layout s)).
  - intros t s' <-. apply visit_layout.
  - intros s' <-. apply visit_layout.
  - apply visit_layout.
Qed.

(** Below the file node the visitor does not write [PackageName]. *)
Lemma visit_tree_PackageName P filename p t s :
  PackageName <$> heap (fst (visit P filename p (Some (ast.NTree t)) s))
  = PackageName <$> heap s.
Proof.
  unfold visit. repeat case_match; simpl; try done;
    by rewrite fmap_alter_same.
Qed.

(** ** One iteration of the loop *)

Lemma processFile_parsed P filename node s :
  ParseFile P filename = Ok node →
  processFile P filename s =
  let s0 := setLocalPackageName "" (setErr None s) in
  Ok (pushResult (fst (bundleOf P filename s0))
        (ast.Inspect (visit P filename (fst (bundleOf P filename s0))) node
           (snd (bundleOf P filename s0)))).
Proof.
  intros Hp. unfold processFile, bundleOf. rewrite Hp. simpl.
  by destruct (assetMap s !! Dir P filename).
Qed.

Lemma processFile_failed P filename e s :
  ParseFile P filename = Failed e → processFile P filename s = Failed e.
Proof. intros Hp. unfold processFile. by rewrite Hp. Qed.

Lemma processFile_Ok_inv P filename s s' :
  processFile P filename s = Ok s' → ∃ node, ParseFile P filename = Ok node.
Proof.
  unfold processFile. destruct (ParseFile P filename) as [node|e]; [eauto|done].
Qed.

Lemma firstEncounter_snoc dirs d :
  firstEncounter (dirs ++ [d]) =
  if decide (d ∈ firstEncounter dirs) then firstEncounter dirs
  else (firstEncounter dirs ++ [d])%list.
Proof. unfold firstEncounter. by rewrite fold_left_app. Qed.

Lemma scanned_entry P : scanned P [] entry.
Proof. split; simpl; [done| |constructor]. intros d p. by rewrite lookup_empty. Qed.

Lemma scanned_layout P pre s s' :
  layout s' = layout s → scanned P pre s → scanned P pre s'.
Proof.
  unfold layout. intros [= HC HB HM HR] [Hh Hm Hr].
  split; rewrite ?HB, ?HR, ?HM; [done| |done]. intros d p. by rewrite ?HM.
Qed.

Lemma scanned_bundleOf P pre filename s :
  scanned P pre s →
  let p := fst (bundleOf P filename s) in
  let s1 := snd (bundleOf P filename s) in
  BaseDir <$> heap s1 = firstEncounter (Dir P <$> (pre ++ [filename])) ∧
  (∀ d q, assetMap s1 !! d = Some q ↔ (BaseDir <$> heap s1) !! q = Some d) ∧
  Forall2 (λ f q, (BaseDir <$> heap s1) !! q = Some (Dir P f))
    (pre ++ [filename]) (result s1 ++ [p]).
Proof.
  intros [Hh Hm Hr]. unfold bundleOf.
  rewrite fmap_app. change (Dir P <$> [filename]) with [Dir P filename].
  rewrite firstEncounter_snoc, <- Hh.
  destruct (assetMap s !! Dir P filename) as [p|] eqn:Hl; simpl.
  - apply Hm in Hl as Hp.
    rewrite decide_True by (eapply list_elem_of_lookup_2; eauto).
    split; [done|]. split; [done|].
    apply Forall2_app; [done|]. by repeat constructor.
  - assert (Dir P filename ∉ BaseDir <$> heap s) as Hfresh.
    { intros [q Hq]%list_elem_of_lookup_1. apply Hm in Hq. congruence. }
    rewrite decide_False by done. rewrite fmap_app. simpl.
    split; [done|]. split.
    + intros d q. destruct (decide (q = length (heap s))) as [->|Hne].
      * rewrite lookup_app_r by (by rewrite length_fmap).
        rewrite length_fmap, Nat.sub_diag. simpl.
        destruct (decide (d = Dir P filename)) as [->|Hd].
        -- by rewrite lookup_insert_eq.
        -- rewrite lookup_insert_ne by done. split; [|congruence].
           intros Hq%Hm. apply lookup_lt_Some in Hq.
           rewrite length_fmap in Hq. lia.
      * destruct (decide (d = Dir P filename)) as [->|Hd].
        -- rewrite lookup_insert_eq. split; [congruence|].
           intros Hq. destruct (decide (q < length (heap s))).
           ++ rewrite lookup_app_l in Hq by (by rewrite length_fmap).
              apply Hm in Hq. congruence.
           ++ apply lookup_lt_Some in Hq.
              rewrite length_app, length_fmap in Hq. simpl in Hq. lia.
        -- rewrite lookup_insert_ne by done. rewrite Hm.
           destruct (decide (q < length (heap s))).
           ++ by rewrite lookup_app_l by (by rewrite length_fmap).
           ++ split; intros Hq; apply lookup_lt_Some in Hq;
                rewrite ?length_app, length_fmap in Hq; simpl in Hq; lia.
    + apply Forall2_app.
      * eapply Forall2_impl; [exact Hr|]. simpl. intros f q Hq.
        rewrite lookup_app_l; [done|]. by eapply lookup_lt_Some.
      * repeat constructor.
        rewrite lookup_app_r by (by rewrite length_fmap).
        by rewrite length_fmap, Nat.sub_diag.
Qed.

Lemma processFile_scanned P pre filename s s' :
  scanned P pre s → processFile P filename s = Ok s' →
  scanned P (pre ++ [filename]) s'.
Proof.
  intros Hs Hrun.
  destruct (processFile_Ok_inv _ _ _ _ Hrun) as [node Hnode].
  rewrite (processFile_parsed _ _ _ _ Hnode) in Hrun. simpl in Hrun.
  injection Hrun as <-.
  set (s0 := setLocalPackageName "" (setErr None s)) in *.
  assert (scanned P pre s0) as Hs0 by (by apply (scanned_layout P pre s)).
  destruct (scanned_bundleOf P pre filename s0 Hs0) as (Hh & Hm & Hr).
  pose proof (Inspect_layout P filename (fst (bundleOf P filename s0)) node
                (snd (bundleOf P filename s0))) as HL.
  unfold layout in HL. injection HL as HC HB HM HR.
  split; simpl; rewrite ?HB, ?HR; [done| |done].
  intros d q. by rewrite HM.
Qed.

Lemma scan_scanned P fs : ∀ pre s s',
  scanned P pre s → scan P fs s = Ok s' → scanned P (pre ++ fs) s'.
Proof.
  induction fs as [|f fs IH]; intros pre s s' Hs Hrun; simpl in Hrun.
  - injection Hrun as <-. by rewrite app_nil_r.
  - destruct (processFile P f s) as [s1|e] eqn:Hf; [|done].
    replace (pre ++ f :: fs) with ((pre ++ [f]) ++ fs)
      by (by rewrite <- app_assoc).
    eapply IH; [|exact Hrun]. by eapply processFile_scanned.
Qed.

Lemma scanned_NoDup P pre s : scanned P pre s → NoDup (BaseDir <$> heap s).
Proof.
  intros [_ Hm _]. apply NoDup_alt. intros i j d Hi Hj.
  apply Hm in Hi, Hj. congruence.
Qed.

(** ** The whole scan *)

Lemma scan_parsed P fs : ∀ s, Forall (parses P) fs → ∃ s', scan P fs s = Ok s'.
Proof.
  induction fs as [|f fs IH]; intros s Hall; simpl; [eauto|].
  apply Forall_cons in Hall as [[node Hnode] Hall].
  rewrite (processFile_parsed _ _ _ _ Hnode). simpl. by apply IH.
Qed.

Lemma scan_Ok_parses P fs : ∀ s s', scan P fs s = Ok s' → Forall (parses P) fs.
Proof.
  induction fs as [|f fs IH]; intros s s' Hrun; [constructor|].
  simpl in Hrun. destruct (processFile P f s) as [s1|e] eqn:Hf; [|done].
  constructor; [by eapply processFile_Ok_inv|by eapply IH].
Qed.

Lemma scan_app P fs gs s :
  scan P (fs ++ gs) s =
  match scan P fs s with
  | Ok s' => scan P gs s'
  | Failed e => Failed e
  end.
Proof.
  revert s. induction fs as [|f fs IH]; intros s; simpl; [done|].
  destruct (processFile P f s); [apply IH|done].
Qed.

Lemma scan_fails_at P pre f post e s :
  Forall (parses P) pre → ParseFile P f = Failed e →
  scan P (pre ++ f :: post) s = Failed e.
Proof.
  intros Hpre Hf. rewrite scan_app.
  destruct (scan_parsed P pre s Hpre) as [s' ->]. simpl.
  by rewrite (processFile_failed _ _ _ _ Hf).
Qed.

Lemma parses_dec P f : {parses P f} + {∃ e, ParseFile P f = Failed e}.
Proof.
  unfold parses. destruct (ParseFile P f) as [node|e]; [left|right]; eauto.
Qed.

Lemma first_failure P fs :
  Exists (λ f, ∃ e, ParseFile P f = Failed e) fs →
  ∃ pre f post e,
    fs = pre ++ f :: post ∧ Forall (parses P) pre ∧ ParseFile P f = Failed e.
Proof.
  induction fs as [|g fs IH]; intros Hex; [by apply Exists_nil in Hex|].
  destruct (parses_dec P g) as [Hg|[e He]].
  - apply Exists_cons in Hex as [[e He]|Hex].
    { destruct Hg as [node Hg]. congruence. }
    destruct (IH Hex) as (pre & f & post & e & -> & Hpre & Hf).
    exists (g :: pre), f, post, e.
    split; [done|]. split; [by constructor|done].
  - exists [], g, fs, e. by repeat split.
Qed.

(** C3, as the code has it.  A scan that succeeds returns one entry for
    every input file, in the order of the files, and the entry of a file
    is the bundle of its directory.  The bundle objects themselves are
    one per directory, made in the order in which the directories first
    occur; files of different directories have distinct bundles, and the
    files of one directory have the same bundle, which the returned
    list then holds once for each of them. *)
Theorem GetReferencedAssets_one_entry_per_file P fs :
  failure (GetReferencedAssets P fs) = None →
  let r := GetReferencedAssets P fs in
  length (bundles r) = length fs ∧
  BaseDir <$> objects r = firstEncounter (Dir P <$> fs) ∧
  NoDup (BaseDir <$> objects r) ∧
  (∀ i f, fs !! i = Some f →
     ∃ p b, bundles r !! i = Some p ∧ objects r !! p = Some b ∧
            BaseDir b = Dir P f) ∧
  (∀ i j f g p q,
     fs !! i = Some f → fs !! j = Some g →
     bundles r !! i = Some p → bundles r !! j = Some q →
     (p = q ↔ Dir P f = Dir P g)).
Proof.
  unfold GetReferencedAssets.
  destruct (scan P fs entry) as [s|e] eqn:Hrun; [|done]. intros _. simpl.
  pose proof (scan_scanned P fs [] entry s (scanned_entry P) Hrun) as Hs.
  simpl in Hs. pose proof (scanned_NoDup _ _ _ Hs) as Hnd.
  destruct Hs as [Hh Hm Hr].
  assert (∀ i f p, fs !! i = Some f → result s !! i = Some p →
                   (BaseDir <$> heap s) !! p = Some (Dir P f)) as Hat.
  { intros i f p Hi Hp. by eapply (Forall2_lookup_lr _ _ _ _ _ _ Hr). }
  split; [symmetry; by eapply Forall2_length|].
  split; [done|]. split; [done|]. split.
  - intros i f Hi.
    destruct (Forall2_lookup_l _ _ _ _ _ Hr Hi) as (p & Hp & Hd).
    rewrite list_lookup_fmap in Hd.
    destruct (heap s !! p) as [b|] eqn:Hb; [|done].
    exists p, b. split; [done|]. split; [done|]. simpl in Hd. congruence.
  - intros i j f g p q Hi Hj Hp Hq.
    pose proof (Hat _ _ _ Hi Hp) as Hdp. pose proof (Hat _ _ _ Hj Hq) as Hdq.
    split; [intros ->; congruence|]. intros Heq. rewrite Heq in Hdp.
    eapply NoDup_lookup; eauto.
Qed.

Lemma GetReferencedAssets_one_entry_per_file_witness :
  let P := unix home twoInOneDir in
  let fs := ["a/x.go"; "b/z.go"; "a/x_test.go"] in
  let r := GetReferencedAssets P fs in
  length (bundles r) = length fs ∧
  BaseDir <$> objects r = firstEncounter (Dir P <$> fs) ∧
  NoDup (BaseDir <$> objects r) ∧
  (∀ i f, fs !! i = Some f →
     ∃ p b, bundles r !! i = Some p ∧ objects r !! p = Some b ∧
            BaseDir b = Dir P f) ∧
  (∀ i j f g p q,
     fs !! i = Some f → fs !! j = Some g →
     bundles r !! i = Some p → bundles r !! j = Some q →
     (p = q ↔ Dir P f = Dir P g)).
Proof.
  apply (GetReferencedAssets_one_entry_per_file (unix home twoInOneDir)
           ["a/x.go"; "b/z.go"; "a/x_test.go"]).
  vm_compute. reflexivity.
Defined.

(** C3 fails on two files of one directory: the scan succeeds, there is
    one bundle object, and the returned list holds it twice. *)
Lemma GetReferencedAssets_lists_bundle_twice :
  let r := GetReferencedAssets (unix home twoInOneDir)
             ["a/x.go"; "a/x_test.go"] in
  failure r = None ∧ length (objects r) = 1 ∧ bundles r = [0; 0] ∧
  ¬ NoDup (bundles r).
Proof.
  vm_compute. repeat split.
  intros Hnd. apply NoDup_cons in Hnd as [Hnotin _].
  apply Hnotin. constructor.
Qed.

(** C8.  When a file of the sequence does not parse, the scan stops at the
    first such file: the function returns the parser's error for that
    file, and a nil list, whatever the files before it held. *)
Theorem GetReferencedAssets_parse_failure P fs :
  Exists (λ f, ∃ e, ParseFile P f = Failed e) fs →
  ∃ pre f post e,
    fs = pre ++ f :: post ∧ Forall (parses P) pre ∧
    ParseFile P f = Failed e ∧
    bundles (GetReferencedAssets P fs) = [] ∧
    failure (GetReferencedAssets P fs) = Some e.
Proof.
  intros Hex. destruct (first_failure P fs Hex) as (pre & f & post & e & -> & Hpre & Hf).
  exists pre, f, post, e. split; [done|]. split; [done|]. split; [done|].
  unfold GetReferencedAssets. by rewrite (scan_fails_at _ _ _ _ _ _ Hpre Hf).
Qed.

Lemma GetReferencedAssets_parse_failure_witness :
  let P := unix home withBadFile in
  let fs := ["a/x.go"; "a/bad.go"; "b/z.go"] in
  ∃ pre f post e,
    fs = pre ++ f :: post ∧ Forall (parses P) pre ∧
    ParseFile P f = Failed e ∧
    bundles (GetReferencedAssets P fs) = [] ∧
    failure (GetReferencedAssets P fs) = Some e.
Proof.
  apply (GetReferencedAssets_parse_failure (unix home withBadFile)
           ["a/x.go"; "a/bad.go"; "b/z.go"]).
  apply Exists_cons_tl, Exists_cons_hd. eexists. reflexivity.
Defined.

Example GetReferencedAssets_bad_file :
  GetReferencedAssets (unix home withBadFile) ["a/x.go"; "a/bad.go"; "b/z.go"]
  = {| objects := []; bundles := [];
       failure := Some "a/bad.go:3:1: expected declaration, found '}'" |}.
Proof. vm_compute. reflexivity. Qed.

(** The only error the function returns is a parse error. *)
Lemma GetReferencedAssets_failure P fs e :
  failure (GetReferencedAssets P fs) = Some e →
  ∃ f, f ∈ fs ∧ ParseFile P f = Failed e.
Proof.
  unfold GetReferencedAssets.
  destruct (scan P fs entry) as [s|e'] eqn:Hrun; [done|]. intros [= ->].
  revert Hrun. generalize entry.
  induction fs as [|f fs IH]; intros s Hrun; [done|]. simpl in Hrun.
  destruct (processFile P f s) as [s1|e1] eqn:Hf.
  - destruct (IH _ Hrun) as (g & Hg & He). exists g. split; [by right|done].
  - injection Hrun as ->. exists f. split; [by left|].
    unfold processFile in Hf. destruct (ParseFile P f); [|congruence].
    by destruct (assetMap _ !! _).
Qed.

Lemma GetReferencedAssets_parsed P fs :
  Forall (parses P) fs → failure (GetReferencedAssets P fs) = None.
Proof.
  intros Hall. unfold GetReferencedAssets.
  by destruct (scan_parsed P fs entry Hall) as [s ->].
Qed.

(** C2 does not hold of the code.  The visitor stores the error of the
    unknown method in [err] and returns false, which only keeps
    [ast.Inspect] out of the children of that statement; [err] is not read
    again.  Here the scan of [x := mewn.Unknown("x")] followed by
    [s := mewn.String("a.txt")] returns no error, and the bundle with the
    asset of the second statement. *)
Theorem GetReferencedAssets_unknown_method_returns_nil_error :
  GetReferencedAssets (unix home unknownMethod) ["a/x.go"]
  = {| objects :=
         [ {| Caller := "a/x.go"; PackageName := "a"; BaseDir := "a";
              Assets := [ {| Name := "a.txt"; AssetPath := "a.txt";
                             AssetGroup := None |} ];
              Groups := [] |} ];
       bundles := [0];
       failure := None |}.
Proof. vm_compute. reflexivity. Qed.

(** The visitor does build the error, in the variable that the function
    never returns. *)
Example visit_unknown_method s :
  visit (unix home unknownMethod) "a/x.go" 0
    (Some (ast.NTree (assign "x" (call "mewn" "Unknown" "x")))) s
  = (setErr (Some "unknown call to mewn.Unknown") s, false).
Proof. reflexivity. Qed.

(** ** What one statement does to the bundle *)

Lemma store_lookup p g s q b :
  heap s !! q = Some b →
  heap (store p g s) !! q = Some (if decide (p = q) then g b else b).
Proof.
  intros Hq. unfold store. simpl. case_decide as Hpq.
  - subst q. rewrite list_lookup_alter_eq, Hq. done.
  - rewrite list_lookup_alter_ne by done. done.
Qed.

Lemma store_lookup_ne p g s q : p ≠ q → heap (store p g s) !! q = heap s !! q.
Proof. intros Hpq. unfold store. simpl. by rewrite list_lookup_alter_ne. Qed.

Lemma hasName_elem assets name :
  hasName assets name = true ↔ name ∈ Name <$> assets.
Proof.
  induction assets as [|a assets IH]; simpl.
  - split; [done|]. by intros ?%elem_of_nil.
  - case_decide as Ha; rewrite elem_of_cons.
    + split; [by left|done].
    + rewrite IH. split; [by right|]. by intros [?|?].
Qed.

Lemma visit_asset_call P filename p s Lhs Rhs a :
  ParseAssignment Lhs Rhs = Some a →
  Obj (RHS a) = "mewn" → Method (RHS a) ∈ assetMethods →
  visit P filename p (Some (ast.NTree (ast.AssignStmt Lhs Rhs))) s
  = (store p (appendAsset {| Name := Path (RHS a); AssetPath := Path (RHS a);
                             AssetGroup := None |}) s, true).
Proof.
  intros Ha Hobj Hm. unfold visit. rewrite Ha.
  rewrite decide_True by done.
  rewrite decide_False.
  - by rewrite decide_True.
  - intros Heq. rewrite Heq in Hm. vm_compute in Hm.
    by repeat (apply elem_of_cons in Hm as [?|Hm]; [done|];
               try apply elem_of_nil in Hm).
Qed.

Lemma visit_item_call P filename p s Lhs Rhs a g :
  ParseAssignment Lhs Rhs = Some a →
  Obj (RHS a) ≠ "mewn" → groups s !! Obj (RHS a) = Some g →
  visit P filename p (Some (ast.NTree (ast.AssignStmt Lhs Rhs))) s
  = (store p (appendAsset {| Name := Path (RHS a); AssetPath := Path (RHS a);
                             AssetGroup := Some g |}) s, true).
Proof.
  intros Ha Hobj Hg. unfold visit. rewrite Ha.
  rewrite decide_False by done. by rewrite Hg.
Qed.

Lemma visit_unknown_receiver P filename p s Lhs Rhs a :
  ParseAssignment Lhs Rhs = Some a →
  Obj (RHS a) ≠ "mewn" → groups s !! Obj (RHS a) = None →
  visit P filename p (Some (ast.NTree (ast.AssignStmt Lhs Rhs))) s = (s, true).
Proof.
  intros Ha Hobj Hg. unfold visit. rewrite Ha.
  rewrite decide_False by done. by rewrite Hg.
Qed.

Lemma visit_Group_declaration P filename p s Lhs Rhs a full :
  ParseAssignment Lhs Rhs = Some a →
  Obj (RHS a) = "mewn" → Method (RHS a) = "Group" →
  Abs P (Join P (Dir P filename) (Path (RHS a))) = Ok full →
  visit P filename p (Some (ast.NTree (ast.AssignStmt Lhs Rhs))) s
  = (let g := {| GroupName := LHS a; LocalPath := Path (RHS a);
                 FullPath := full |} in
     setGroup (LHS a) g (store p (appendGroup g) s), true).
Proof.
  intros Ha Hobj Hm Habs. unfold visit. rewrite Ha.
  rewrite !decide_True by done. by rewrite Habs.
Qed.

Lemma visit_Group_unresolved P filename p s Lhs Rhs a e :
  ParseAssignment Lhs Rhs = Some a →
  Obj (RHS a) = "mewn" → Method (RHS a) = "Group" →
  Abs P (Join P (Dir P filename) (Path (RHS a))) = Failed e →
  visit P filename p (Some (ast.NTree (ast.AssignStmt Lhs Rhs))) s = (s, false).
Proof.
  intros Ha Hobj Hm Habs. unfold visit. rewrite Ha.
  rewrite !decide_True by done. by rewrite Habs.
Qed.

(** C1, as the code has it.  A matched asset call, be it a direct call on
    [mewn] or a call on a registered group, appends its AssetReference to
    the bundle of the file whatever the bundle holds: nothing is dropped,
    and when the name is already there ([HasAsset], which the scan does not
    call) the bundle has that name twice afterwards. *)
Theorem asset_call_always_appends P filename p s Lhs Rhs a b owner :
  ParseAssignment Lhs Rhs = Some a →
  heap s !! p = Some b →
  (Obj (RHS a) = "mewn" ∧ Method (RHS a) ∈ assetMethods ∧ owner = None) ∨
  (Obj (RHS a) ≠ "mewn" ∧ ∃ g, groups s !! Obj (RHS a) = Some g ∧
                               owner = Some g) →
  let new := {| Name := Path (RHS a); AssetPath := Path (RHS a);
                AssetGroup := owner |} in
  let s' :=
    fst (visit P filename p (Some (ast.NTree (ast.AssignStmt Lhs Rhs))) s) in
  ∃ b', heap s' !! p = Some b' ∧
        Assets b' = Assets b ++ [new] ∧
        length (Assets b') = S (length (Assets b)) ∧
        (HasAsset b (Name new) = true → ¬ NoDup (Name <$> Assets b')).
Proof.
  intros Ha Hb Hcase new s'.
  assert (s' = store p (appendAsset new) s) as ->.
  { subst s' new.
    destruct Hcase as [(Hobj & Hm & ->)|(Hobj & g & Hg & ->)].
    - by rewrite (visit_asset_call _ _ _ _ _ _ _ Ha Hobj Hm).
    - by rewrite (visit_item_call _ _ _ _ _ _ _ _ Ha Hobj Hg). }
  exists (appendAsset new b).
  rewrite (store_lookup _ _ _ _ _ Hb), decide_True by done.
  split; [done|]. split; [done|]. simpl. split.
  - rewrite length_app. simpl. lia.
  - intros Hhas%hasName_elem. rewrite fmap_app. simpl.
    intros Hnd%NoDup_app. destruct Hnd as (_ & Hdisj & _).
    apply (Hdisj _ Hhas). by left.
Qed.

Lemma asset_call_always_appends_witness :
  let P := unix home sameNameTwice in
  let stmt := assign "t" (call "mewn" "String" "a.txt") in
  let first := {| Name := "a.txt"; AssetPath := "a.txt"; AssetGroup := None |} in
  let b := {| Caller := "a/x.go"; PackageName := "a"; BaseDir := "a";
              Assets := [first]; Groups := [] |} in
  let s := {| heap := [b]; result := []; assetMap := {["a" := 0]};
              groups := ∅; err := None; packageName := "a" |} in
  let s' := fst (visit P "a/x.go" 0 (Some (ast.NTree stmt)) s) in
  ∃ b', heap s' !! 0 = Some b' ∧
        Assets b' = Assets b ++ [first] ∧
        length (Assets b') = S (length (Assets b)) ∧
        (HasAsset b "a.txt" = true → ¬ NoDup (Name <$> Assets b')).
Proof.
  intros P stmt first b s.
  apply (asset_call_always_appends P "a/x.go" 0 s
           [ast.Ident "t"] [call "mewn" "String" "a.txt"]
           {| LHS := "t";
              RHS := {| Obj := "mewn"; Method := "String"; Path := "a.txt" |} |}
           b None).
  - reflexivity.
  - reflexivity.
  - left. split; [reflexivity|]. split; [|reflexivity].
    apply list_elem_of_In. simpl. auto.
Defined.

(** C1 fails on a file that declares the asset [a.txt] twice: the bundle
    of its directory holds two AssetReferences of that name. *)
Lemma GetReferencedAssets_keeps_duplicate :
  let a := {| Name := "a.txt"; AssetPath := "a.txt"; AssetGroup := None |} in
  fmap (M := option) Assets <$>
    listing (GetReferencedAssets (unix home sameNameTwice) ["a/x.go"])
  = [Some [a; a]].
Proof. vm_compute. reflexivity. Qed.

(** ** The bundle of a directory across files *)

Lemma visit_lookup_ne P filename p node s q :
  p ≠ q → heap (fst (visit P filename p node s)) !! q = heap s !! q.
Proof.
  intros Hpq. unfold visit.
  repeat case_match; simpl; try done; by rewrite list_lookup_alter_ne.
Qed.

Lemma Inspect_lookup_ne P filename p file s q :
  p ≠ q → heap (ast.Inspect (visit P filename p) file s) !! q = heap s !! q.
Proof.
  intros Hpq.
  apply (Inspect_preserves_from _ (λ s', heap s' !! q = heap s !! q)).
  - intros t s' <-. by apply visit_lookup_ne.
  - intros s' <-. by apply visit_lookup_ne.
  - by apply visit_lookup_ne.
Qed.

Lemma Inspect_bundle P filename p file s b :
  heap s !! p = Some b →
  ∃ b', heap (ast.Inspect (visit P filename p) file s) !! p = Some b' ∧
        Caller b' = Caller b ∧ BaseDir b' = BaseDir b ∧
        PackageName b' = ast.Name file.
Proof.
  intros Hb. set (s' := ast.Inspect (visit P filename p) file s).
  pose proof (Inspect_layout P filename p file s) as HL.
  fold s' in HL. unfold layout in HL. injection HL as HC HB _ _.
  assert (PackageName <$> heap s' =
          PackageName <$> heap (fst (visit P filename p
                                       (Some (ast.NFile file)) s))) as HP.
  { apply (Inspect_preserves_from _
             (λ x, PackageName <$> heap x =
                   PackageName <$> heap (fst (visit P filename p
                                                (Some (ast.NFile file)) s)))).
    - intros t x <-. apply visit_tree_PackageName.
    - by intros x <-.
    - done. }
  apply (f_equal (λ l, l !! p)) in HC, HB, HP.
  simpl in HP. rewrite !list_lookup_fmap in HC, HB, HP.
  rewrite list_lookup_alter_eq in HP. simpl in HP.
  rewrite Hb in HC, HB, HP. simpl in HC, HB, HP.
  destruct (heap s' !! p) as [b'|]; [|done].
  exists b'. simpl in *. split; [done|]. repeat split; congruence.
Qed.

(** C4, as the code has it.  A file whose directory has a bundle already
    leaves the [Caller] (and [BaseDir]) of that bundle as the first file
    set them, and writes its own package name into [PackageName]; the
    bundles of the other directories are not written.  A file of a new
    directory makes the bundle, with itself as [Caller]. *)
Theorem processFile_Caller_and_PackageName P filename node s :
  ParseFile P filename = Ok node →
  ∃ s', processFile P filename s = Ok s' ∧
    (∀ p b, assetMap s !! Dir P filename = Some p → heap s !! p = Some b →
       (∃ b', heap s' !! p = Some b' ∧ Caller b' = Caller b ∧
              BaseDir b' = BaseDir b ∧ PackageName b' = ast.Name node) ∧
       (∀ q, q ≠ p → heap s' !! q = heap s !! q)) ∧
    (assetMap s !! Dir P filename = None →
       ∃ b', heap s' !! length (heap s) = Some b' ∧ Caller b' = filename ∧
             BaseDir b' = Dir P filename ∧ PackageName b' = ast.Name node).
Proof.
  intros Hnode. rewrite (processFile_parsed _ _ _ _ Hnode).
  eexists. split; [reflexivity|]. simpl. unfold bundleOf. simpl. split.
  - intros p b Hp Hb. rewrite Hp. simpl. split.
    + by apply Inspect_bundle.
    + intros q Hq. by rewrite Inspect_lookup_ne.
  - intros Hnone. rewrite Hnone. simpl.
    edestruct (Inspect_bundle P filename (length (heap s)) node) as
      (b' & Hb' & HC & HB & HP); [|exists b'; split; [exact Hb'|]].
    + simpl. by rewrite lookup_app_r, Nat.sub_diag.
    + done.
Qed.

Lemma processFile_Caller_and_PackageName_witness :
  let P := unix home twoInOneDir in
  let node := source "a_test" [assign "t" (call "mewn" "String" "y.txt")] in
  let s := afterDeclaration in
  ∃ s', processFile P "a/x_test.go" s = Ok s' ∧
    (∀ p b, assetMap s !! Dir P "a/x_test.go" = Some p → heap s !! p = Some b →
       (∃ b', heap s' !! p = Some b' ∧ Caller b' = Caller b ∧
              BaseDir b' = BaseDir b ∧ PackageName b' = ast.Name node) ∧
       (∀ q, q ≠ p → heap s' !! q = heap s !! q)) ∧
    (assetMap s !! Dir P "a/x_test.go" = None →
       ∃ b', heap s' !! length (heap s) = Some b' ∧ Caller b' = "a/x_test.go" ∧
             BaseDir b' = Dir P "a/x_test.go" ∧ PackageName b' = ast.Name node).
Proof.
  apply (processFile_Caller_and_PackageName (unix home twoInOneDir)
           "a/x_test.go"
           (source "a_test" [assign "t" (call "mewn" "String" "y.txt")])
           afterDeclaration).
  reflexivity.
Defined.

(** C4 fails for the package name.  After [a/x.go] the bundle of [a] has
    the package name [a]; the later file [a/x_test.go] of the same
    directory changes it to [a_test], and leaves the [Caller]. *)
Lemma later_file_changes_PackageName :
  let P := unix home twoInOneDir in
  let before := GetReferencedAssets P ["a/x.go"] in
  let after := GetReferencedAssets P ["a/x.go"; "a/x_test.go"] in
  PackageName <$> objects before = ["a"] ∧
  PackageName <$> objects after = ["a_test"] ∧
  Caller <$> objects before = ["a/x.go"] ∧
  Caller <$> objects after = ["a/x.go"].
Proof. vm_compute. done. Qed.

(** ** A group whose path does not resolve *)

(** C9, as the code has it.  When the absolute path of a group cannot be
    resolved the visitor leaves every variable as it was (no group, no
    error) and returns false, so that [ast.Inspect] does not descend into
    that one statement; the walk goes on with the statements after it.
    The file still gets its entry in the result. *)
Theorem unresolved_Group_is_skipped P filename p s Lhs Rhs a e :
  ParseAssignment Lhs Rhs = Some a →
  Obj (RHS a) = "mewn" → Method (RHS a) = "Group" →
  Abs P (Join P (Dir P filename) (Path (RHS a))) = Failed e →
  let f := visit P filename p in
  f (Some (ast.NTree (ast.AssignStmt Lhs Rhs))) s = (s, false) ∧
  ast.walk f (ast.AssignStmt Lhs Rhs) s = s ∧
  (∀ rest, ast.walkList f (ast.AssignStmt Lhs Rhs :: rest) s
           = ast.walkList f rest s) ∧
  (∀ node s0, ParseFile P filename = Ok node →
     ∃ s', processFile P filename s0 = Ok s' ∧
           result s' = result s0 ++ [fst (bundleOf P filename s0)]).
Proof.
  intros Ha Hobj Hm Habs f.
  pose proof (visit_Group_unresolved P filename p s _ _ _ _ Ha Hobj Hm Habs)
    as Hv.
  assert (ast.walk f (ast.AssignStmt Lhs Rhs) s = s) as Hw.
  { rewrite walk_unfold. subst f. by rewrite Hv. }
  split; [done|]. split; [done|]. split.
  - intros rest. by rewrite walkList_cons, Hw.
  - intros node s0 Hnode. rewrite (processFile_parsed _ _ _ _ Hnode).
    eexists. split; [reflexivity|]. simpl.
    pose proof (Inspect_layout P filename
                  (fst (bundleOf P filename
                          (setLocalPackageName "" (setErr None s0)))) node
                  (snd (bundleOf P filename
                          (setLocalPackageName "" (setErr None s0))))) as HL.
    unfold layout in HL. injection HL as _ _ _ HR. rewrite HR.
    unfold bundleOf. simpl. by destruct (assetMap s0 !! Dir P filename).
Qed.

Lemma unresolved_Group_is_skipped_witness :
  let P := unix nowhere groupThenAsset in
  let f := visit P "a/x.go" 0 in
  let Lhs := [ast.Ident "g"] in
  let Rhs := [call "mewn" "Group" "dir"] in
  f (Some (ast.NTree (ast.AssignStmt Lhs Rhs))) entry = (entry, false) ∧
  ast.walk f (ast.AssignStmt Lhs Rhs) entry = entry ∧
  (∀ rest, ast.walkList f (ast.AssignStmt Lhs Rhs :: rest) entry
           = ast.walkList f rest entry) ∧
  (∀ node s0, ParseFile P "a/x.go" = Ok node →
     ∃ s', processFile P "a/x.go" s0 = Ok s' ∧
           result s' = result s0 ++ [fst (bundleOf P "a/x.go" s0)]).
Proof.
  apply (unresolved_Group_is_skipped (unix nowhere groupThenAsset) "a/x.go" 0
           entry [ast.Ident "g"] [call "mewn" "Group" "dir"]
           {| LHS := "g";
              RHS := {| Obj := "mewn"; Method := "Group"; Path := "dir" |} |}
           "getwd: no such file or directory");
    reflexivity.
Defined.

(** C9 fails on [g := mewn.Group("dir")] followed by
    [s := mewn.String("a.txt")] where the working directory cannot be
    found: the path of the group does not resolve, and the asset of the
    statement after it is in the bundle all the same. *)
Lemma walk_goes_on_after_unresolved_Group :
  let P := unix nowhere groupThenAsset in
  Abs P (Join P (Dir P "a/x.go") "dir")
  = Failed "getwd: no such file or directory" ∧
  GetReferencedAssets P ["a/x.go"]
  = {| objects :=
         [ {| Caller := "a/x.go"; PackageName := "a"; BaseDir := "a";
              Assets := [ {| Name := "a.txt"; AssetPath := "a.txt";
                             AssetGroup := None |} ];
              Groups := [] |} ];
       bundles := [0];
       failure := None |}.
Proof. vm_compute. done. Qed.

(** ** The table of groups *)

Lemma grows_refl s : grows s s.
Proof. intros q b Hb. eauto. Qed.

Lemma grows_trans s1 s2 s3 : grows s1 s2 → grows s2 s3 → grows s1 s3.
Proof.
  intros H12 H23 q b Hb. destruct (H12 _ _ Hb) as (b2 & Hb2 & Hg2).
  destruct (H23 _ _ Hb2) as (b3 & Hb3 & Hg3). eauto.
Qed.

Lemma store_grows p f s :
  (∀ b g, g ∈ Groups b → g ∈ Groups (f b)) → grows s (store p f s).
Proof.
  intros Hf q b Hb. rewrite (store_lookup _ _ _ _ _ Hb).
  eexists. split; [done|]. case_decide; auto.
Qed.

Lemma visit_grows P filename p node s :
  grows s (fst (visit P filename p node s)).
Proof.
  unfold visit, grows.
  repeat case_match; simpl; intros q b Hb;
    try (eexists; split; [exact Hb|done]);
    (destruct (decide (p = q)) as [<-|Hne];
     [ rewrite list_lookup_alter_eq, Hb; simpl; eexists; split; [done|];
       simpl; intros ? ?; rewrite ?elem_of_app; auto
     | rewrite list_lookup_alter_ne by done; eexists; split; [exact Hb|done] ]).
Qed.

Lemma visit_length P filename p node s :
  length (heap (fst (visit P filename p node s))) = length (heap s).
Proof.
  pose proof (visit_layout P filename p node s) as HL.
  unfold layout in HL. injection HL as HC _ _ _.
  apply (f_equal length) in HC. by rewrite !length_fmap in HC.
Qed.

(** An entry of the table after a visit was there before, or is the group
    that this visit has declared and put into the bundle. *)
Lemma visit_groups_lookup P filename p node s name g :
  groups (fst (visit P filename p node s)) !! name = Some g →
  groups s !! name = Some g ∨
  (GroupName g = name ∧
   ∀ b, heap s !! p = Some b →
        heap (fst (visit P filename p node s)) !! p = Some (appendGroup g b)).
Proof.
  unfold visit. repeat case_match; simpl; try (by left).
  match goal with
  | |- <[?lhs := ?g0]> _ !! _ = _ → _ =>
      destruct (decide (lhs = name)) as [<-|Hne]
  end.
  - rewrite lookup_insert_eq. intros [= <-]. right. split; [done|].
    intros b Hb. by rewrite list_lookup_alter_eq, Hb.
  - rewrite lookup_insert_ne by done. by left.
Qed.

Lemma visit_registered P filename p node s :
  p < length (heap s) → registered s →
  registered (fst (visit P filename p node s)).
Proof.
  intros Hp Hreg name g Hlook.
  apply visit_groups_lookup in Hlook as [Hold|[Hname Hnew]].
  - destruct (Hreg _ _ Hold) as (Hn & q & b & Hb & Hg). split; [done|].
    destruct (visit_grows P filename p node s _ _ Hb) as (b' & Hb' & Hin).
    exists q, b'. auto.
  - split; [done|]. destruct (lookup_lt_is_Some_2 _ _ Hp) as [b Hb].
    exists p, (appendGroup g b). split; [by apply Hnew|].
    simpl. apply elem_of_app. right. by left.
Qed.

Lemma Inspect_registered P filename p file s :
  p < length (heap s) → registered s →
  registered (ast.Inspect (visit P filename p) file s).
Proof.
  intros Hp Hreg.
  apply (Inspect_preserves_from _
           (λ x, p < length (heap x) ∧ registered x)).
  - intros t x [Hx Hr]. split; [by rewrite visit_length|].
    by apply visit_registered.
  - by intros x [Hx Hr].
  - split; [by rewrite visit_length|]. by apply visit_registered.
Qed.

(** So it holds in the middle of a file too, after any of its statements. *)
Lemma walkList_registered P filename p ts s :
  p < length (heap s) → registered s →
  registered (ast.walkList (visit P filename p) ts s).
Proof.
  intros Hp Hreg.
  apply (walkList_preserves_all _
           (λ x, p < length (heap x) ∧ registered x)); [| |done].
  - intros t x [Hx Hr]. split; [by rewrite visit_length|].
    by apply visit_registered.
  - by intros x [Hx Hr].
Qed.

Lemma processFile_registered P filename s s' :
  registered s → (∀ d p, assetMap s !! d = Some p → p < length (heap s)) →
  processFile P filename s = Ok s' → registered s'.
Proof.
  intros Hreg Hmap Hrun.
  destruct (processFile_Ok_inv _ _ _ _ Hrun) as [node Hnode].
  rewrite (processFile_parsed _ _ _ _ Hnode) in Hrun. simpl in Hrun.
  injection Hrun as <-.
  assert (∀ x, registered x → registered (pushResult (fst (bundleOf P filename
            (setLocalPackageName "" (setErr None s)))) x)) as Hpush by done.
  apply Hpush, Inspect_registered; unfold bundleOf; simpl;
    destruct (assetMap s !! Dir P filename) as [p|] eqn:Hl; simpl.
  - by eapply Hmap.
  - rewrite length_app. simpl. lia.
  - done.
  - intros name g Hg. unfold newBundle in *. simpl in *.
    destruct (Hreg _ _ Hg) as (Hn & q & b & Hb & Hin).
    split; [done|]. exists q, b. split; [|done].
    rewrite lookup_app_l; [done|]. by eapply lookup_lt_Some.
Qed.

Lemma scan_registered P fs s :
  scan P fs entry = Ok s → registered s.
Proof.
  assert (∀ pre s0 s1, scanned P pre s0 → registered s0 →
                       scan P fs s0 = Ok s1 → registered s1) as Hgen.
  { induction fs as [|f fs IH]; intros pre s0 s1 Hs Hreg Hrun;
      simpl in Hrun; [by injection Hrun as <-|].
    destruct (processFile P f s0) as [s2|e] eqn:Hf; [|done].
    eapply (IH (pre ++ [f])); [by eapply processFile_scanned| |done].
    eapply processFile_registered; [done| |done].
    intros d p Hd. apply (scanned_map _ _ _ Hs) in Hd.
    apply lookup_lt_Some in Hd. by rewrite length_fmap in Hd. }
  apply (Hgen [] entry); [apply scanned_entry|].
  intros name g Hg. simpl in Hg. by rewrite lookup_empty in Hg.
Qed.

(** *** The table between a declaration and a later statement *)

Lemma visit_keeps P filename p node s name :
  declaredBy name node = false →
  groups (fst (visit P filename p node s)) !! name = groups s !! name.
Proof.
  unfold visit, declaredBy.
  destruct node as [[file|t]|]; [done|destruct t as [| | | |Lhs Rhs|]|];
    try done.
  destruct (ParseAssignment Lhs Rhs) as [a|]; [|done].
  intros Hno%bool_decide_eq_false.
  destruct (decide (Obj (RHS a) = "mewn")) as [Hobj|Hobj].
  - destruct (decide (Method (RHS a) = "Group")) as [Hm|Hm].
    + destruct (Abs P _) as [full|e]; [|done]. simpl.
      apply lookup_insert_ne. intros Heq. apply Hno. done.
    + by destruct (decide (Method (RHS a) ∈ assetMethods)).
  - by destruct (groups s !! Obj (RHS a)).
Qed.

Lemma walkList_keeps P filename p name ts :
  Forall (λ t, declares name t = false →
               ∀ s, groups (ast.walk (visit P filename p) t s) !! name
                    = groups s !! name) ts →
  existsb (declares name) ts = false →
  ∀ s, groups (ast.walkList (visit P filename p) ts s) !! name
       = groups s !! name.
Proof.
  induction 1 as [|t ts Ht _ IH]; intros Hno s; [done|].
  simpl in Hno. apply orb_false_iff in Hno as [Hnt Hnts].
  rewrite walkList_cons, (IH Hnts). by apply Ht.
Qed.

Lemma walk_keeps P filename p name t :
  declares name t = false →
  ∀ s, groups (ast.walk (visit P filename p) t s) !! name = groups s !! name.
Proof.
  induction t as [x|kind value|X Sel IHX|Fun Args IHF IHA|Lhs Rhs IHL IHR
                 |children IHc] using Tree_nested_ind;
    intros Hno s; rewrite walk_unfold.
  - done.
  - done.
  - simpl. unfold ast.visitLeaf. simpl. by apply IHX.
  - simpl in Hno. apply orb_false_iff in Hno as [HnF HnA]. simpl.
    rewrite (walkList_keeps _ _ _ _ _ IHA HnA). by apply IHF.
  - cbn [declares] in Hno.
    apply orb_false_iff in Hno as [Hno HnR].
    apply orb_false_iff in Hno as [Hhere HnL].
    pose proof (visit_keeps P filename p _ s name Hhere) as Hv.
    destruct (snd (visit P filename p
                     (Some (ast.NTree (ast.AssignStmt Lhs Rhs))) s));
      [|done].
    simpl. rewrite (walkList_keeps _ _ _ _ _ IHR HnR).
    by rewrite (walkList_keeps _ _ _ _ _ IHL HnL).
  - simpl in Hno. simpl. by apply walkList_keeps.
Qed.

Lemma Inspect_keeps P filename p name file s :
  existsb (declares name) (ast.Decls file) = false →
  groups (ast.Inspect (visit P filename p) file s) !! name = groups s !! name.
Proof.
  intros Hno. unfold ast.Inspect, ast.visitLeaf. simpl.
  rewrite walkList_keeps; [done| |done].
  apply Forall_forall. intros t _. apply walk_keeps.
Qed.

Lemma processFile_keeps P filename node name s s' :
  ParseFile P filename = Ok node →
  existsb (declares name) (ast.Decls node) = false →
  processFile P filename s = Ok s' →
  groups s' !! name = groups s !! name.
Proof.
  intros Hnode Hno Hrun.
  rewrite (processFile_parsed _ _ _ _ Hnode) in Hrun. simpl in Hrun.
  injection Hrun as <-. simpl. rewrite Inspect_keeps by done.
  unfold bundleOf. simpl. by destruct (assetMap s !! Dir P filename).
Qed.

(** A declaration stays in the table until the next one of its name. *)
Lemma undisturbed_groups P name s s' :
  undisturbed P name s s' → groups s' !! name = groups s !! name.
Proof.
  induction 1 as [s|s s' filename p node _ IH Hno|s s' filename p t _ IH Hno
                 |s s' filename _ IH|s s' p _ IH
                 |s s' s'' filename node _ IH Hnode Hno Hrun].
  - done.
  - by rewrite visit_keeps.
  - by rewrite walk_keeps.
  - rewrite <- IH. unfold bundleOf. simpl.
    by destruct (assetMap s' !! Dir P filename).
  - done.
  - by rewrite (processFile_keeps _ _ _ _ _ _ Hnode Hno Hrun).
Qed.

Lemma walk_grows P filename p t s :
  grows s (ast.walk (visit P filename p) t s).
Proof.
  apply (walk_preserves _ (grows s)); [| |apply grows_refl].
  - intros t' x Hx. eapply grows_trans; [done|apply visit_grows].
  - intros x Hx. eapply grows_trans; [done|apply visit_grows].
Qed.

Lemma bundleOf_grows P filename s :
  grows s (snd (bundleOf P filename (setLocalPackageName "" (setErr None s)))).
Proof.
  unfold bundleOf. simpl. intros q b Hb. exists b. split; [|done].
  destruct (assetMap s !! Dir P filename); simpl; [done|].
  rewrite lookup_app_l; [done|]. by eapply lookup_lt_Some.
Qed.

Lemma processFile_grows P filename s s' :
  processFile P filename s = Ok s' → grows s s'.
Proof.
  intros Hrun.
  destruct (processFile_Ok_inv _ _ _ _ Hrun) as [node Hnode].
  rewrite (processFile_parsed _ _ _ _ Hnode) in Hrun. simpl in Hrun.
  injection Hrun as <-.
  eapply grows_trans; [apply (bundleOf_grows P filename)|].
  intros q b Hb. simpl.
  revert q b Hb.
  apply (Inspect_preserves_from _
           (grows (snd (bundleOf P filename
                          (setLocalPackageName "" (setErr None s)))))).
  - intros t' x Hx. eapply grows_trans; [done|apply visit_grows].
  - intros x Hx. eapply grows_trans; [done|apply visit_grows].
  - apply visit_grows.
Qed.

(** No group leaves its bundle on the way. *)
Lemma undisturbed_grows P name s s' : undisturbed P name s s' → grows s s'.
Proof.
  induction 1 as [s|s s' filename p node _ IH Hno|s s' filename p t _ IH Hno
                 |s s' filename _ IH|s s' p _ IH
                 |s s' s'' filename node _ IH Hnode Hno Hrun].
  - apply grows_refl.
  - eapply grows_trans; [done|apply visit_grows].
  - eapply grows_trans; [done|apply walk_grows].
  - eapply grows_trans; [done|apply bundleOf_grows].
  - done.
  - eapply grows_trans; [done|by eapply processFile_grows].
Qed.

(** The relation holds along the statements of a block, along a file,
    and along the files of a scan. *)
Lemma walkList_undisturbed P name filename p ts : ∀ s0 s,
  undisturbed P name s0 s → existsb (declares name) ts = false →
  undisturbed P name s0 (ast.walkList (visit P filename p) ts s).
Proof.
  induction ts as [|t ts IH]; intros s0 s Hs Hno; [done|].
  simpl in Hno. apply orb_false_iff in Hno as [Hnt Hnts].
  rewrite walkList_cons. apply IH; [|done]. by apply undisturbed_walk.
Qed.

Lemma scan_undisturbed P name fs : ∀ s0 s s',
  undisturbed P name s0 s →
  Forall (λ f, ∃ node, ParseFile P f = Ok node ∧
                       existsb (declares name) (ast.Decls node) = false) fs →
  scan P fs s = Ok s' → undisturbed P name s0 s'.
Proof.
  induction fs as [|f fs IH]; intros s0 s s' Hs Hall Hrun; simpl in Hrun.
  - by injection Hrun as <-.
  - apply Forall_cons in Hall as [(node & Hnode & Hno) Hall].
    destruct (processFile P f s) as [s1|e] eqn:Hf; [|done].
    eapply IH; [|done|done]. by eapply undisturbed_file.
Qed.

Lemma afterDeclaration_registered : registered afterDeclaration.
Proof.
  apply visit_registered; [simpl; lia|].
  intros name g Hg. simpl in Hg. by rewrite lookup_empty in Hg.
Qed.

(** C6.  A matched call on a receiver other than [mewn].  When a group was
    declared under the receiver's name by a statement processed before,
    in this file or an earlier one, and no other declaration of the name
    was processed since, the table of groups has that group, and exactly
    one AssetReference with the path as its name and that group as its
    owner is appended to the bundle of the file; nothing else changes.
    When no declaration of a group of that name has been processed, since
    the start of the scan or in terms of what the bundles hold, the table
    does not have the receiver and the statement changes nothing. *)
Theorem group_item_call P filename p s Lhs Rhs a b :
  registered s → heap s !! p = Some b →
  ParseAssignment Lhs Rhs = Some a → Obj (RHS a) ≠ "mewn" →
  let out :=
    visit P filename p (Some (ast.NTree (ast.AssignStmt Lhs Rhs))) s in
  (∀ g, groups s !! Obj (RHS a) = Some g →
     let new := {| Name := Path (RHS a); AssetPath := Path (RHS a);
                   AssetGroup := Some g |} in
     GroupName g = Obj (RHS a) ∧
     (∃ q c, heap s !! q = Some c ∧ g ∈ Groups c) ∧
     snd out = true ∧ groups (fst out) = groups s ∧
     heap (fst out) !! p = Some (appendAsset new b) ∧
     Assets (appendAsset new b) = Assets b ++ [new] ∧
     Groups (appendAsset new b) = Groups b ∧
     (∀ q, q ≠ p → heap (fst out) !! q = heap s !! q)) ∧
  ((∀ q c g, heap s !! q = Some c → g ∈ Groups c →
             GroupName g ≠ Obj (RHS a)) →
   groups s !! Obj (RHS a) = None ∧ out = (s, true)) ∧
  (∀ filename0 p0 s0 Lhs0 Rhs0 d full,
     ParseAssignment Lhs0 Rhs0 = Some d →
     Obj (RHS d) = "mewn" → Method (RHS d) = "Group" →
     LHS d = Obj (RHS a) →
     Abs P (Join P (Dir P filename0) (Path (RHS d))) = Ok full →
     undisturbed P (Obj (RHS a))
       (fst (visit P filename0 p0
               (Some (ast.NTree (ast.AssignStmt Lhs0 Rhs0))) s0)) s →
     let g := {| GroupName := LHS d; LocalPath := Path (RHS d);
                 FullPath := full |} in
     let new := {| Name := Path (RHS a); AssetPath := Path (RHS a);
                   AssetGroup := Some g |} in
     groups s !! Obj (RHS a) = Some g ∧
     snd out = true ∧ groups (fst out) = groups s ∧
     (∃ b', heap (fst out) !! p = Some b' ∧
            Assets b' = Assets b ++ [new] ∧ Groups b' = Groups b ∧
            Caller b' = Caller b ∧ PackageName b' = PackageName b ∧
            BaseDir b' = BaseDir b) ∧
     (∀ q, q ≠ p → heap (fst out) !! q = heap s !! q)) ∧
  (undisturbed P (Obj (RHS a)) entry s →
   groups s !! Obj (RHS a) = None ∧ out = (s, true)).
Proof.
  intros Hreg Hb Ha Hobj out.
  assert (∀ g, groups s !! Obj (RHS a) = Some g →
            out = (store p (appendAsset
                              {| Name := Path (RHS a);
                                 AssetPath := Path (RHS a);
                                 AssetGroup := Some g |}) s, true)) as Hitem.
  { intros g Hg. subst out.
    by rewrite (visit_item_call _ _ _ _ _ _ _ _ Ha Hobj Hg). }
  split; [|split; [|split]].
  - intros g Hg new. destruct (Hreg _ _ Hg) as [Hname Hin].
    rewrite (Hitem _ Hg). simpl.
    split; [done|]. split; [done|]. split; [done|]. split; [done|].
    split; [by rewrite list_lookup_alter_eq, Hb|].
    split; [done|]. split; [done|].
    intros q Hq. by rewrite list_lookup_alter_ne.
  - intros Hnone.
    assert (groups s !! Obj (RHS a) = None) as Hg.
    { destruct (groups s !! Obj (RHS a)) as [g|] eqn:Hg; [|done].
      destruct (Hreg _ _ Hg) as (Hname & q & c & Hc & Hin).
      by destruct (Hnone _ _ _ Hc Hin). }
    split; [done|]. subst out. by eapply visit_unknown_receiver.
  - intros filename0 p0 s0 Lhs0 Rhs0 d full Hd Hroot Hm Hname Habs Hafter
      g new.
    assert (groups s !! Obj (RHS a) = Some g) as Hg.
    { rewrite (undisturbed_groups _ _ _ _ Hafter).
      rewrite (visit_Group_declaration _ _ _ _ _ _ _ _ Hd Hroot Hm Habs).
      simpl. rewrite <- Hname. apply lookup_insert_eq. }
    split; [done|]. rewrite (Hitem _ Hg). simpl.
    split; [done|]. split; [done|]. split.
    + exists (appendAsset new b).
      by rewrite list_lookup_alter_eq, Hb.
    + intros q Hq. by rewrite list_lookup_alter_ne.
  - intros Hstart.
    assert (groups s !! Obj (RHS a) = None) as Hg.
    { rewrite (undisturbed_groups _ _ _ _ Hstart). apply lookup_empty. }
    split; [done|]. subst out. by eapply visit_unknown_receiver.
Qed.

(** In [a/decl.go], [s := g.String("x.txt")] right after
    [g := mewn.Group("dir")]: the bundle gets the asset, owned by the
    group of the declaration. *)
Lemma group_item_call_witness :
  let P := unix home groupFiles in
  let out := visit P "a/decl.go" 0
               (Some (ast.NTree (assign "s" (call "g" "String" "x.txt"))))
               afterDeclaration in
  let new := {| Name := "x.txt"; AssetPath := "x.txt";
                AssetGroup := Some declaredGroup |} in
  groups afterDeclaration !! "g" = Some declaredGroup ∧
  snd out = true ∧ groups (fst out) = groups afterDeclaration ∧
  (∃ b', heap (fst out) !! 0 = Some b' ∧
         Assets b' = Assets bundleOfDecl ++ [new] ∧
         Groups b' = Groups bundleOfDecl ∧
         Caller b' = Caller bundleOfDecl ∧
         PackageName b' = PackageName bundleOfDecl ∧
         BaseDir b' = BaseDir bundleOfDecl) ∧
  (∀ q, q ≠ 0 → heap (fst out) !! q = heap afterDeclaration !! q).
Proof.
  refine (proj1 (proj2 (proj2
    (group_item_call (unix home groupFiles) "a/decl.go" 0 afterDeclaration
       [ast.Ident "s"] [call "g" "String" "x.txt"]
       {| LHS := "s";
          RHS := {| Obj := "g"; Method := "String"; Path := "x.txt" |} |}
       bundleOfDecl afterDeclaration_registered _ _ _)))
    "a/decl.go" 0 (snd (newBundle "a/decl.go" "a" entry))
    [ast.Ident "g"] [call "mewn" "Group" "dir"]
    {| LHS := "g";
       RHS := {| Obj := "mewn"; Method := "Group"; Path := "dir" |} |}
    "/home/u/a/dir" _ _ _ _ _ _).
  - reflexivity.
  - reflexivity.
  - simpl. discriminate.
  - reflexivity.
  - reflexivity.
  - reflexivity.
  - reflexivity.
  - reflexivity.
  - apply undisturbed_refl.
Defined.

(** The order of processing, on whole scans: the call after the
    declaration gives the asset with its group, the call before the
    declaration gives nothing, and a declaration in an earlier file
    serves a later file. *)
Example item_after_declaration :
  fmap (M := option) Assets <$>
    listing (GetReferencedAssets (unix home groupFiles) ["a/decl.go"])
  = [Some [ {| Name := "x.txt"; AssetPath := "x.txt";
               AssetGroup := Some declaredGroup |} ]].
Proof. vm_compute. reflexivity. Qed.

Example item_before_declaration :
  GetReferencedAssets (unix home groupFiles) ["a/late.go"]
  = {| objects := [ {| Caller := "a/late.go"; PackageName := "a";
                       BaseDir := "a"; Assets := [];
                       Groups := [declaredGroup] |} ];
       bundles := [0]; failure := None |}.
Proof. vm_compute. reflexivity. Qed.

Example item_after_declaration_in_earlier_file :
  fmap (M := option) Assets <$>
    listing (GetReferencedAssets (unix home groupFiles)
               ["a/decl.go"; "a/late.go"])
  = [Some [ {| Name := "x.txt"; AssetPath := "x.txt";
               AssetGroup := Some declaredGroup |};
            {| Name := "x.txt"; AssetPath := "x.txt";
               AssetGroup := Some declaredGroup |} ];
     Some [ {| Name := "x.txt"; AssetPath := "x.txt";
               AssetGroup := Some declaredGroup |};
            {| Name := "x.txt"; AssetPath := "x.txt";
               AssetGroup := Some declaredGroup |} ]].
Proof. vm_compute. reflexivity. Qed.

(** C10.  Two declarations of a group under one name, the second
    processed at some later point with no other declaration of the name
    in between.  Up to the second declaration the table has the first
    group under the name.  The second declaration makes the entry the new
    group and leaves the other entries; the new group is appended to the
    [Groups] of the bundle of its file; the first group is still in the
    [Groups] of the bundle it was declared in, and no bundle has lost a
    group.  From then on, until a further declaration of the name, every
    call on the name that is processed, in any file, appends exactly one
    asset owned by the new group. *)
Theorem later_Group_declaration_overwrites
  P filename0 p0 s0 Lhs0 Rhs0 a0 b0 full0 filename p s Lhs Rhs a b full :
  heap s0 !! p0 = Some b0 →
  ParseAssignment Lhs0 Rhs0 = Some a0 →
  Obj (RHS a0) = "mewn" → Method (RHS a0) = "Group" →
  Abs P (Join P (Dir P filename0) (Path (RHS a0))) = Ok full0 →
  undisturbed P (LHS a0)
    (fst (visit P filename0 p0
            (Some (ast.NTree (ast.AssignStmt Lhs0 Rhs0))) s0)) s →
  heap s !! p = Some b →
  ParseAssignment Lhs Rhs = Some a →
  Obj (RHS a) = "mewn" → Method (RHS a) = "Group" →
  Abs P (Join P (Dir P filename) (Path (RHS a))) = Ok full →
  LHS a = LHS a0 →
  let old := {| GroupName := LHS a0; LocalPath := Path (RHS a0);
                FullPath := full0 |} in
  let new := {| GroupName := LHS a; LocalPath := Path (RHS a);
                FullPath := full |} in
  let s' :=
    fst (visit P filename p (Some (ast.NTree (ast.AssignStmt Lhs Rhs))) s) in
  groups s !! LHS a = Some old ∧
  groups s' !! LHS a = Some new ∧
  (∀ name, name ≠ LHS a → groups s' !! name = groups s !! name) ∧
  (∃ b', heap s' !! p = Some b' ∧ Groups b' = Groups b ++ [new] ∧
         Assets b' = Assets b) ∧
  (∃ c, heap s' !! p0 = Some c ∧ old ∈ Groups c) ∧
  grows s s' ∧
  (∀ s2 filename2 p2 Lhs2 Rhs2 a2 b2,
     undisturbed P (LHS a) s' s2 →
     ParseAssignment Lhs2 Rhs2 = Some a2 →
     Obj (RHS a2) = LHS a → LHS a ≠ "mewn" →
     heap s2 !! p2 = Some b2 →
     groups s2 !! LHS a = Some new ∧
     ∃ b2', heap (fst (visit P filename2 p2
                         (Some (ast.NTree (ast.AssignStmt Lhs2 Rhs2))) s2))
              !! p2 = Some b2' ∧
            Assets b2' =
              Assets b2 ++ [ {| Name := Path (RHS a2);
                                AssetPath := Path (RHS a2);
                                AssetGroup := Some new |} ] ∧
            Groups b2' = Groups b2).
Proof.
  intros Hb0 Ha0 Hobj0 Hm0 Habs0 Hafter Hb Ha Hobj Hm Habs Hname old new s'.
  pose proof (visit_grows P filename p
                (Some (ast.NTree (ast.AssignStmt Lhs Rhs))) s) as Hgrows.
  fold s' in Hgrows.
  assert (s' = setGroup (LHS a) new (store p (appendGroup new) s)) as Hs'.
  { subst s'. by rewrite (visit_Group_declaration _ _ _ _ _ _ _ _
                            Ha Hobj Hm Habs). }
  assert (groups s' !! LHS a = Some new) as Hnew.
  { rewrite Hs'. simpl. apply lookup_insert_eq. }
  split.
  { rewrite Hname, (undisturbed_groups _ _ _ _ Hafter).
    rewrite (visit_Group_declaration _ _ _ _ _ _ _ _ Ha0 Hobj0 Hm0 Habs0).
    simpl. apply lookup_insert_eq. }
  split; [done|]. split.
  { intros name Hne. rewrite Hs'. simpl. by rewrite lookup_insert_ne. }
  split.
  { exists (appendGroup new b). rewrite Hs'. simpl.
    by rewrite list_lookup_alter_eq, Hb. }
  split.
  { pose proof (undisturbed_grows _ _ _ _ Hafter) as Hkeep.
    destruct (Hkeep p0 (appendGroup old b0)) as (c & Hc & Hsub).
    { rewrite (visit_Group_declaration _ _ _ _ _ _ _ _ Ha0 Hobj0 Hm0 Habs0).
      simpl. by rewrite list_lookup_alter_eq, Hb0. }
    destruct (Hgrows _ _ Hc) as (c' & Hc' & Hsub'). exists c'.
    split; [done|]. apply Hsub', Hsub. simpl.
    apply elem_of_app. right. by left. }
  split; [done|].
  intros s2 filename2 p2 Lhs2 Rhs2 a2 b2 Hlater Ha2 Hobj2 Hroot Hb2.
  assert (groups s2 !! LHS a = Some new) as Hg2
    by (by rewrite (undisturbed_groups _ _ _ _ Hlater)).
  split; [done|].
  rewrite <- Hobj2 in Hg2, Hroot.
  rewrite (visit_item_call _ _ _ _ _ _ _ _ Ha2 Hroot Hg2). simpl.
  eexists. rewrite list_lookup_alter_eq, Hb2. simpl.
  split; [reflexivity|]. split; reflexivity.
Qed.

(** In [a/decl.go]: [g := mewn.Group("dir")], and right after it
    [g := mewn.Group("other")]. *)
Lemma later_Group_declaration_overwrites_witness :
  let P := unix home groupFiles in
  let s := afterDeclaration in
  let old := declaredGroup in
  let new := {| GroupName := "g"; LocalPath := "other";
                FullPath := "/home/u/a/other" |} in
  let s' := fst (visit P "a/decl.go" 0
                   (Some (ast.NTree (assign "g" (call "mewn" "Group" "other"))))
                   s) in
  groups s !! "g" = Some old ∧
  groups s' !! "g" = Some new ∧
  (∀ name, name ≠ "g" → groups s' !! name = groups s !! name) ∧
  (∃ b', heap s' !! 0 = Some b' ∧ Groups b' = Groups bundleOfDecl ++ [new] ∧
         Assets b' = Assets bundleOfDecl) ∧
  (∃ c, heap s' !! 0 = Some c ∧ old ∈ Groups c) ∧
  grows s s' ∧
  (∀ s2 filename2 p2 Lhs2 Rhs2 a2 b2,
     undisturbed P "g" s' s2 →
     ParseAssignment Lhs2 Rhs2 = Some a2 →
     Obj (RHS a2) = "g" → "g" ≠ "mewn" →
     heap s2 !! p2 = Some b2 →
     groups s2 !! "g" = Some new ∧
     ∃ b2', heap (fst (visit P filename2 p2
                         (Some (ast.NTree (ast.AssignStmt Lhs2 Rhs2))) s2))
              !! p2 = Some b2' ∧
            Assets b2' =
              Assets b2 ++ [ {| Name := Path (RHS a2);
                                AssetPath := Path (RHS a2);
                                AssetGroup := Some new |} ] ∧
            Groups b2' = Groups b2).
Proof.
  apply (later_Group_declaration_overwrites (unix home groupFiles)
           "a/decl.go" 0 (snd (newBundle "a/decl.go" "a" entry))
           [ast.Ident "g"] [call "mewn" "Group" "dir"]
           {| LHS := "g";
              RHS := {| Obj := "mewn"; Method := "Group"; Path := "dir" |} |}
           {| Caller := "a/decl.go"; PackageName := ""; BaseDir := "a";
              Assets := []; Groups := [] |}
           "/home/u/a/dir"
           "a/decl.go" 0 afterDeclaration
           [ast.Ident "g"] [call "mewn" "Group" "other"]
           {| LHS := "g";
              RHS := {| Obj := "mewn"; Method := "Group"; Path := "other" |} |}
           bundleOfDecl "/home/u/a/other").
  - reflexivity.
  - reflexivity.
  - reflexivity.
  - reflexivity.
  - reflexivity.
  - apply undisturbed_refl.
  - reflexivity.
  - reflexivity.
  - reflexivity.
  - reflexivity.
  - reflexivity.
  - reflexivity.
Defined.

(** On a whole scan: [b/again.go] declares [g] again; its call on [g] gets
    the group of [b/again.go], and each declaration stays in the [Groups]
    of its own bundle. *)
Example redeclaration_in_later_file :
  let again := {| GroupName := "g"; LocalPath := "other";
                  FullPath := "/home/u/b/other" |} in
  GetReferencedAssets (unix home groupFiles) ["a/decl.go"; "b/again.go"]
  = {| objects :=
         [ {| Caller := "a/decl.go"; PackageName := "a"; BaseDir := "a";
              Assets := [ {| Name := "x.txt"; AssetPath := "x.txt";
                             AssetGroup := Some declaredGroup |} ];
              Groups := [declaredGroup] |};
           {| Caller := "b/again.go"; PackageName := "b"; BaseDir := "b";
              Assets := [ {| Name := "y.bin"; AssetPath := "y.bin";
                             AssetGroup := Some again |} ];
              Groups := [again] |} ];
       bundles := [0; 1]; failure := None |}.
Proof. vm_compute. reflexivity. Qed.

(** ** Further properties: [HasAsset], the matchers, the [String] methods *)

(** X1.  [HasAsset] is true exactly when an asset of the bundle has the
    name; in particular it is false on a bundle without assets, and it
    stays true when assets are appended. *)
Theorem HasAsset_iff_named r name :
  HasAsset r name = true ↔ ∃ a, a ∈ Assets r ∧ Name a = name.
Proof.
  unfold HasAsset. rewrite hasName_elem, list_elem_of_fmap.
  split; intros (a & H1 & H2); exists a; done.
Qed.

Lemma Replace_removes_all s c : contains (strings.Replace s c "") c = false.
Proof.
  induction s as [|a s IH]; [done|]. cbn [strings.Replace].
  destruct (Ascii.eqb a c) eqn:Hac; [done|].
  cbn [contains]. by rewrite Hac.
Qed.

Lemma ParseAssignment_Some_inv Lhs Rhs a :
  ParseAssignment Lhs Rhs = Some a →
  ∃ Fun Args, Rhs = [ast.CallExpr Fun Args] ∧
              ParseCallExpr Fun Args = Some (RHS a).
Proof.
  unfold ParseAssignment.
  destruct Rhs as [|[| | |Fun Args| |] [|? ?]]; try done.
  destruct (ParseCallExpr Fun Args) as [c|] eqn:Hc; [|done].
  intros [= <-]. by exists Fun, Args.
Qed.

(** X2.  The path that the matchers extract holds no double-quote
    character, whatever the literal was. *)
Theorem matched_path_has_no_quote Lhs Rhs a :
  ParseAssignment Lhs Rhs = Some a → contains (Path (RHS a)) dquote = false.
Proof.
  intros (Fun & Args & _ & Hc)%ParseAssignment_Some_inv.
  apply ParseCallExpr_Some in Hc as (obj & method & kind & value & _ & _ & ->).
  apply Replace_removes_all.
Qed.

Lemma matched_path_has_no_quote_witness :
  contains
    (Path (RHS {| LHS := "s";
                  RHS := {| Obj := "mewn"; Method := "String";
                            Path := "a.txt" |} |})) dquote = false.
Proof.
  apply (matched_path_has_no_quote [ast.Ident "s"]
           [call "mewn" "String" "a.txt"]).
  reflexivity.
Defined.

Lemma append_cancel_l p t1 t2 : p +:+ t1 = p +:+ t2 → t1 = t2.
Proof.
  induction p as [|a p IH]; [done|]. rewrite !append_String.
  intros [= H]. by apply IH.
Qed.

Lemma length_append s t :
  String.length (s +:+ t) = String.length s + String.length t.
Proof.
  induction s as [|a s IH]; [done|]. rewrite append_String. simpl.
  by rewrite IH.
Qed.

Lemma append_cancel_r p1 p2 t : p1 +:+ t = p2 +:+ t → p1 = p2.
Proof.
  revert p2. induction p1 as [|a p1 IH]; intros [|b p2] H.
  - done.
  - apply (f_equal String.length) in H.
    rewrite !length_append in H. simpl in H. lia.
  - apply (f_equal String.length) in H.
    rewrite !length_append in H. simpl in H. lia.
  - rewrite !append_String in H. injection H as -> H. f_equal. by apply IH.
Qed.

(** Two texts that are cut at the first occurrence of a delimiter. *)
Lemma split_at_first c s1 s2 d r1 r2 :
  contains s1 c = false → contains s2 c = false →
  s1 +:+ (String c d +:+ r1) = s2 +:+ (String c d +:+ r2) →
  s1 = s2 ∧ r1 = r2.
Proof.
  revert s2. induction s1 as [|a s1 IH]; intros [|b s2] H1 H2 H.
  - split; [done|]. by eapply append_cancel_l.
  - rewrite !append_String in H. simpl in H. injection H as -> _.
    cbn [contains] in H2. by rewrite Ascii.eqb_refl in H2.
  - rewrite !append_String in H. simpl in H. injection H as -> _.
    cbn [contains] in H1. by rewrite Ascii.eqb_refl in H1.
  - rewrite !append_String in H. injection H as -> H.
    cbn [contains] in H1, H2.
    destruct (Ascii.eqb b c); [done|].
    destruct (IH s2 H1 H2 H) as [-> ->]. done.
Qed.

(** X3.  The text of a [CallStmt] determines it, when the receiver and the
    method hold no apostrophe (as identifiers do): distinct calls print
    differently. *)
Theorem CallStmt_String_inj c1 c2 :
  contains (Obj c1) apostrophe = false →
  contains (Method c1) apostrophe = false →
  contains (Obj c2) apostrophe = false →
  contains (Method c2) apostrophe = false →
  CallStmt_String c1 = CallStmt_String c2 → c1 = c2.
Proof.
  destruct c1 as [o1 m1 p1], c2 as [o2 m2 p2]. unfold CallStmt_String. simpl.
  intros Ho1 Hm1 Ho2 Hm2 H.
  apply append_cancel_l in H.
  apply (split_at_first apostrophe) in H as [-> H]; [|done..].
  apply (split_at_first apostrophe) in H as [-> H]; [|done..].
  by apply append_cancel_r in H as ->.
Qed.

Lemma CallStmt_String_inj_witness :
  {| Obj := "mewn"; Method := "String"; Path := "it's.txt" |}
  = {| Obj := "mewn"; Method := "String"; Path := "it's.txt" |}.
Proof.
  apply (CallStmt_String_inj
           {| Obj := "mewn"; Method := "String"; Path := "it's.txt" |}
           {| Obj := "mewn"; Method := "String"; Path := "it's.txt" |});
    reflexivity.
Defined.

(** X4.  The same for an [AssignStmt], when moreover the left-hand name
    holds no space. *)
Theorem AssignStmt_String_inj a1 a2 :
  contains (LHS a1) space = false → contains (LHS a2) space = false →
  contains (Obj (RHS a1)) apostrophe = false →
  contains (Method (RHS a1)) apostrophe = false →
  contains (Obj (RHS a2)) apostrophe = false →
  contains (Method (RHS a2)) apostrophe = false →
  AssignStmt_String a1 = AssignStmt_String a2 → a1 = a2.
Proof.
  destruct a1 as [l1 c1], a2 as [l2 c2]. unfold AssignStmt_String. simpl.
  intros Hl1 Hl2 Ho1 Hm1 Ho2 Hm2 H.
  apply (split_at_first space) in H as [-> H]; [|done..].
  f_equal. destruct c1 as [o1 m1 p1], c2 as [o2 m2 p2].
  unfold CallStmt_String in H. simpl in *.
  apply append_cancel_l in H.
  apply (split_at_first apostrophe) in H as [-> H]; [|done..].
  apply (split_at_first apostrophe) in H as [-> H]; [|done..].
  by apply append_cancel_r in H as ->.
Qed.

Lemma AssignStmt_String_inj_witness :
  {| LHS := "s";
     RHS := {| Obj := "mewn"; Method := "String"; Path := "a b.txt" |} |}
  = {| LHS := "s";
       RHS := {| Obj := "mewn"; Method := "String"; Path := "a b.txt" |} |}.
Proof.
  apply (AssignStmt_String_inj
           {| LHS := "s";
              RHS := {| Obj := "mewn"; Method := "String";
                        Path := "a b.txt" |} |}
           {| LHS := "s";
              RHS := {| Obj := "mewn"; Method := "String";
                        Path := "a b.txt" |} |});
    reflexivity.
Defined.

(** What the methods print for [s := mewn.String("a.txt")]. *)
Example AssignStmt_String_example :
  AssignStmt_String
    {| LHS := "s";
       RHS := {| Obj := "mewn"; Method := "String"; Path := "a.txt" |} |}
  = "s = { obj: 'mewn', method: 'String', path: 'a.txt' }".
Proof. reflexivity. Qed.

(** ** Files that do not use the API *)

Lemma walkList_unmatched P filename p ts :
  Forall (λ t, matched t = false → ∀ s, ast.walk (visit P filename p) t s = s)
    ts →
  existsb matched ts = false → ∀ s, ast.walkList (visit P filename p) ts s = s.
Proof.
  induction 1 as [|t ts Ht _ IH]; intros Hno s; [done|].
  simpl in Hno. apply orb_false_iff in Hno as [Hnt Hnts].
  rewrite walkList_cons, (Ht Hnt). by apply IH.
Qed.

Lemma walk_unmatched P filename p t :
  matched t = false → ∀ s, ast.walk (visit P filename p) t s = s.
Proof.
  induction t as [name|kind value|X Sel IHX|Fun Args IHF IHA|Lhs Rhs IHL IHR
                 |children IHc] using Tree_nested_ind;
    intros Hno s; rewrite walk_unfold; simpl in Hno.
  - done.
  - done.
  - simpl. unfold ast.visitLeaf. simpl. by apply IHX.
  - apply orb_false_iff in Hno as [HnF HnA]. simpl.
    rewrite (IHF HnF). by apply walkList_unmatched.
  - simpl. destruct (ParseAssignment Lhs Rhs); [done|].
    apply orb_false_iff in Hno as [HnL HnR]. simpl.
    rewrite (walkList_unmatched _ _ _ _ IHL HnL).
    by apply walkList_unmatched.
  - simpl. by apply walkList_unmatched.
Qed.

Lemma Inspect_unmatched P filename p file s :
  existsb matched (ast.Decls file) = false →
  ast.Inspect (visit P filename p) file s
  = store p (setPackageName (ast.Name file))
      (setLocalPackageName (ast.Name file) s).
Proof.
  intros Hno. unfold ast.Inspect, ast.visitLeaf. simpl.
  apply walkList_unmatched; [|done].
  apply Forall_forall. intros t _. apply walk_unmatched.
Qed.

(** X5.  A file in which no assignment matches the API leaves the table of
    groups and the assets and groups of every bundle as they were; when
    its directory is new, the bundle made for it has its file name, its
    package name and directory, and neither assets nor groups. *)
Theorem processFile_without_matches P filename node s :
  ParseFile P filename = Ok node →
  existsb matched (ast.Decls node) = false →
  ∃ s', processFile P filename s = Ok s' ∧
    groups s' = groups s ∧
    (∀ q b, heap s !! q = Some b →
       ∃ b', heap s' !! q = Some b' ∧ Assets b' = Assets b ∧
             Groups b' = Groups b) ∧
    (assetMap s !! Dir P filename = None →
       heap s' = heap s ++
         [ {| Caller := filename; PackageName := ast.Name node;
              BaseDir := Dir P filename; Assets := []; Groups := [] |} ]).
Proof.
  intros Hnode Hno. rewrite (processFile_parsed _ _ _ _ Hnode).
  eexists. split; [reflexivity|]. simpl.
  rewrite (Inspect_unmatched _ _ _ _ _ Hno). unfold bundleOf. simpl.
  destruct (assetMap s !! Dir P filename) as [p|] eqn:Hl; simpl.
  - split; [done|]. split; [|done].
    intros q b Hb. destruct (decide (p = q)) as [<-|Hne].
    + rewrite list_lookup_alter_eq, Hb. by eexists.
    + rewrite list_lookup_alter_ne by done. by eexists.
  - split; [done|]. split.
    + intros q b Hb.
      rewrite list_lookup_alter_ne
        by (apply lookup_lt_Some in Hb; lia).
      rewrite lookup_app_l by (by eapply lookup_lt_Some). by eexists.
    + intros _. rewrite alter_app_r_alt by done.
      by rewrite Nat.sub_diag.
Qed.

Lemma processFile_without_matches_witness :
  let P := unix home
             [("c/doc.go", Ok (source "c" [ast.AssignStmt [ast.Ident "n"]
                                             [ast.BasicLit token.INT "1"]]))] in
  let node := source "c" [ast.AssignStmt [ast.Ident "n"]
                            [ast.BasicLit token.INT "1"]] in
  let s := afterDeclaration in
  ∃ s', processFile P "c/doc.go" s = Ok s' ∧
    groups s' = groups s ∧
    (∀ q b, heap s !! q = Some b →
       ∃ b', heap s' !! q = Some b' ∧ Assets b' = Assets b ∧
             Groups b' = Groups b) ∧
    (assetMap s !! Dir P "c/doc.go" = None →
       heap s' = heap s ++
         [ {| Caller := "c/doc.go"; PackageName := ast.Name node;
              BaseDir := Dir P "c/doc.go"; Assets := []; Groups := [] |} ]).
Proof.
  apply (processFile_without_matches
           (unix home
              [("c/doc.go", Ok (source "c" [ast.AssignStmt [ast.Ident "n"]
                                              [ast.BasicLit token.INT "1"]]))])
           "c/doc.go"
           (source "c" [ast.AssignStmt [ast.Ident "n"]
                          [ast.BasicLit token.INT "1"]])
           afterDeclaration);
    reflexivity.
Defined.

(** X6.  The function returns an error exactly when some file does not
    parse: no statement of a file that parses makes the scan fail. *)
Theorem GetReferencedAssets_fails_iff_unparsed P fs :
  failure (GetReferencedAssets P fs) = None ↔ Forall (parses P) fs.
Proof.
  unfold GetReferencedAssets. split.
  - destruct (scan P fs entry) as [s|e] eqn:Hrun; [|done].
    intros _. by eapply scan_Ok_parses.
  - intros Hall. by destruct (scan_parsed P fs entry Hall) as [s ->].
Qed.

(** ** What every bundle of a scan satisfies *)

Lemma ParseAssignment_path_no_quote Lhs Rhs a :
  ParseAssignment Lhs Rhs = Some a → contains (Path (RHS a)) dquote = false.
Proof.
  intros (Fun & Args & _ & Hc)%ParseAssignment_Some_inv.
  apply ParseCallExpr_Some in Hc as (obj & method & kind & value & _ & _ & ->).
  apply Replace_removes_all.
Qed.

(** One visit rewrites the bundle of the file with a function that keeps
    what was there and adds at most one asset or one group. *)
Lemma visit_heap P filename p node s :
  ∃ f, heap (fst (visit P filename p node s)) = alter f p (heap s) ∧
    ∀ b, Caller (f b) = Caller b ∧ BaseDir (f b) = BaseDir b ∧
         Assets b `prefix_of` Assets (f b) ∧
         Groups b `prefix_of` Groups (f b) ∧
         (∀ a, a ∈ Assets (f b) → a ∈ Assets b ∨ freshAsset s a) ∧
         (∀ g, g ∈ Groups (f b) → g ∈ Groups b ∨ freshGroup P filename g).
Proof.
  assert (∀ s0 : Frame, heap s0 = heap s →
    ∃ f, heap s0 = alter f p (heap s) ∧
      ∀ b, Caller (f b) = Caller b ∧ BaseDir (f b) = BaseDir b ∧
           Assets b `prefix_of` Assets (f b) ∧
           Groups b `prefix_of` Groups (f b) ∧
           (∀ a, a ∈ Assets (f b) → a ∈ Assets b ∨ freshAsset s a) ∧
           (∀ g, g ∈ Groups (f b) → g ∈ Groups b ∨ freshGroup P filename g))
    as Hsame.
  { intros s0 ->. exists id. split; [by rewrite list_alter_id|].
    intros b. simpl. repeat split; auto. }
  assert (∀ a0, freshAsset s a0 →
    ∃ f, alter (appendAsset a0) p (heap s) = alter f p (heap s) ∧
      ∀ b, Caller (f b) = Caller b ∧ BaseDir (f b) = BaseDir b ∧
           Assets b `prefix_of` Assets (f b) ∧
           Groups b `prefix_of` Groups (f b) ∧
           (∀ a, a ∈ Assets (f b) → a ∈ Assets b ∨ freshAsset s a) ∧
           (∀ g, g ∈ Groups (f b) → g ∈ Groups b ∨ freshGroup P filename g))
    as Hasset.
  { intros a0 Ha0. exists (appendAsset a0). split; [done|].
    intros b. simpl. repeat split; auto.
    - by apply prefix_app_r.
    - intros a [Ha|Ha%list_elem_of_singleton]%elem_of_app;
        [auto|subst; auto]. }
  destruct node as [[file|t]|]; [|destruct t as [| | | |Lhs Rhs|]|];
    try (by apply Hsame).
  - exists (setPackageName (ast.Name file)). split; [done|].
    intros b. simpl. repeat split; auto.
  - unfold visit.
    destruct (ParseAssignment Lhs Rhs) as [a|] eqn:Ha; [|by apply Hsame].
    pose proof (ParseAssignment_path_no_quote _ _ _ Ha) as Hq.
    destruct (decide (Obj (RHS a) = "mewn")) as [Hobj|Hobj].
    + destruct (decide (Method (RHS a) = "Group")) as [Hm|Hm].
      * destruct (Abs P (Join P (Dir P filename) (Path (RHS a))))
          as [full|e] eqn:Habs; [|by apply Hsame].
        simpl.
        exists (appendGroup {| GroupName := LHS a; LocalPath := Path (RHS a);
                               FullPath := full |}).
        split; [done|]. intros b. simpl. repeat split; auto.
        -- by apply prefix_app_r.
        -- intros g [Hg|Hg%list_elem_of_singleton]%elem_of_app; [auto|].
           subst g. right. by split.
      * destruct (decide (Method (RHS a) ∈ assetMethods)); [|by apply Hsame].
        simpl. apply Hasset. repeat split; [done|]. by intros g [=].
    + destruct (groups s !! Obj (RHS a)) as [g0|] eqn:Hg0; [|by apply Hsame].
      simpl. apply Hasset. repeat split; [done|].
      intros g [= <-]. by exists (Obj (RHS a)).
Qed.

Lemma lookup_alter_inv {A : Type} (f : A → A) (p : nat) (l : list A) q x :
  alter f p l !! q = Some x →
  (q = p ∧ ∃ y, l !! p = Some y ∧ x = f y) ∨ (q ≠ p ∧ l !! q = Some x).
Proof.
  destruct (decide (p = q)) as [<-|Hne].
  - rewrite list_lookup_alter_eq. destruct (l !! p) as [y|]; [|done].
    intros [= <-]. left. eauto.
  - rewrite list_lookup_alter_ne by done. right. auto.
Qed.

Lemma visit_sound P filename p node s :
  p < length (heap s) →
  (∀ b, heap s !! p = Some b → BaseDir b = Dir P filename) →
  sound P s → sound P (fst (visit P filename p node s)).
Proof.
  intros Hp Hdir [Hreg Hassets Hgroups].
  pose proof (visit_grows P filename p node s) as Hgrows.
  destruct (visit_heap P filename p node s) as (f & Hheap & Hf).
  split.
  - by apply visit_registered.
  - intros q b' a Hb' Ha. rewrite Hheap in Hb'.
    assert (∀ g, (∃ q' c, heap s !! q' = Some c ∧ g ∈ Groups c) →
                 ∃ q' c, heap (fst (visit P filename p node s)) !! q' = Some c
                         ∧ g ∈ Groups c) as Hkeep.
    { intros g (q' & c & Hc & Hin).
      destruct (Hgrows _ _ Hc) as (c' & Hc' & Hsub). eauto. }
    assert (a ∈ Assets b' →
            (∃ b, heap s !! q = Some b ∧ a ∈ Assets b) ∨ freshAsset s a)
      as Hwhere.
    { intros _. apply lookup_alter_inv in Hb'
        as [(-> & b & Hb & ->)|[Hne Hb']]; [|eauto].
      destruct (Hf b) as (_ & _ & _ & _ & HA & _).
      destruct (HA _ Ha); eauto. }
    destruct (Hwhere Ha) as [(b & Hb & Hin)|(Hn & Hq & Hown)].
    + destruct (Hassets _ _ _ Hb Hin) as (Hn & Hq & Hown).
      split; [done|]. split; [done|].
      intros g Hg. destruct (Hown _ Hg) as [Hroot Hex]. auto.
    + split; [done|]. split; [done|].
      intros g Hg. destruct (Hown _ Hg) as (name & Hroot & Hlook).
      destruct (Hreg _ _ Hlook) as [Hname Hex]. split; [congruence|auto].
  - intros q b' g Hb' Hg. rewrite Hheap in Hb'.
    apply lookup_alter_inv in Hb' as [(-> & b & Hb & ->)|[Hne Hb']].
    + destruct (Hf b) as (_ & HB & _ & _ & _ & HG). rewrite HB.
      destruct (HG _ Hg) as [Hold|[Habs Hq]]; [by eapply Hgroups|].
      by rewrite (Hdir _ Hb).
    + by eapply Hgroups.
Qed.

Lemma visit_extends P filename p node s :
  extends s (fst (visit P filename p node s)).
Proof.
  pose proof (visit_layout P filename p node s) as HL.
  unfold layout in HL. injection HL as _ _ _ HR.
  destruct (visit_heap P filename p node s) as (f & Hheap & Hf).
  split; [by rewrite HR|].
  intros q b Hb. rewrite Hheap, list_lookup_alter, Hb.
  case_decide as Hpq.
  - subst q. rewrite Hb. simpl. eexists. split; [done|].
    destruct (Hf b) as (HC & HB & HA & HG & _). auto.
  - eexists. split; [done|]. repeat split; reflexivity.
Qed.

Lemma extends_refl s : extends s s.
Proof.
  split; [done|]. intros q b Hb. exists b. repeat split; reflexivity || done.
Qed.

Lemma extends_trans s1 s2 s3 : extends s1 s2 → extends s2 s3 → extends s1 s3.
Proof.
  intros [Hr12 H12] [Hr23 H23]. split; [by etrans|].
  intros q b Hb. destruct (H12 _ _ Hb) as (b2 & Hb2 & HC2 & HB2 & HA2 & HG2).
  destruct (H23 _ _ Hb2) as (b3 & Hb3 & HC3 & HB3 & HA3 & HG3).
  exists b3. split; [done|].
  split; [congruence|]. split; [congruence|]. split; by etrans.
Qed.

Lemma sound_ext P s s' :
  heap s' = heap s → groups s' = groups s → sound P s → sound P s'.
Proof.
  intros Hh Hg [Hr Ha HG].
  split; unfold registered in *; rewrite ?Hh, ?Hg; done.
Qed.

Lemma extends_ext s s1 s2 :
  heap s2 = heap s1 → result s2 = result s1 → extends s s1 → extends s s2.
Proof. intros Hh Hr [H1 H2]. split; by rewrite ?Hh, ?Hr. Qed.

Lemma Inspect_sound P filename p file s :
  (BaseDir <$> heap s) !! p = Some (Dir P filename) →
  sound P s → sound P (ast.Inspect (visit P filename p) file s).
Proof.
  intros Hp Hs.
  assert (∀ node x, layout x = layout s ∧ sound P x →
            layout (fst (visit P filename p node x)) = layout s ∧
            sound P (fst (visit P filename p node x))) as Hstep.
  { intros node x [HL Hx]. split; [by rewrite visit_layout|].
    unfold layout in HL. injection HL as _ HB _ _.
    rewrite <- HB in Hp. apply visit_sound; [| |done].
    - apply lookup_lt_Some in Hp. by rewrite length_fmap in Hp.
    - intros b Hb. rewrite list_lookup_fmap, Hb in Hp. simpl in Hp.
      congruence. }
  apply (Inspect_preserves_from _ (λ x, layout x = layout s ∧ sound P x)).
  - intros t x. apply Hstep.
  - intros x. apply Hstep.
  - by apply Hstep.
Qed.

Lemma Inspect_extends P filename p file s :
  extends s (ast.Inspect (visit P filename p) file s).
Proof.
  apply (Inspect_preserves_from _ (extends s)).
  - intros t x Hx. eapply extends_trans; [done|apply visit_extends].
  - intros x Hx. eapply extends_trans; [done|apply visit_extends].
  - apply visit_extends.
Qed.

Lemma newBundle_sound P filename d s :
  sound P s → sound P (snd (newBundle filename d s)).
Proof.
  intros [Hr Ha HG].
  assert (∀ q b, (heap s ++ [ {| Caller := filename; PackageName := "";
                                 BaseDir := d; Assets := [];
                                 Groups := [] |} ]) !! q = Some b →
                 heap s !! q = Some b ∨ (Assets b = [] ∧ Groups b = []))
    as Hlook.
  { intros q b Hb. apply lookup_app_Some in Hb as [Hb|[_ Hb]]; [by left|].
    right. apply list_lookup_singleton_Some in Hb as [_ <-]. done. }
  assert (∀ g, (∃ q c, heap s !! q = Some c ∧ g ∈ Groups c) →
               ∃ q c, heap (snd (newBundle filename d s)) !! q = Some c
                      ∧ g ∈ Groups c) as Hkeep.
  { intros g (q & c & Hc & Hin). exists q, c. split; [|done].
    simpl. rewrite lookup_app_l; [done|]. by eapply lookup_lt_Some. }
  split.
  - intros name g Hg. simpl in Hg. destruct (Hr _ _ Hg) as [Hn Hex]. auto.
  - intros q b a Hb Hin. simpl in Hb.
    destruct (Hlook _ _ Hb) as [Hold|[HA _]].
    + destruct (Ha _ _ _ Hold Hin) as (H1 & H2 & H3).
      split; [done|]. split; [done|].
      intros g Hg. destruct (H3 _ Hg). auto.
    + rewrite HA in Hin. by apply elem_of_nil in Hin.
  - intros q b g Hb Hin. simpl in Hb.
    destruct (Hlook _ _ Hb) as [Hold|[_ HGs]]; [by eapply HG|].
    rewrite HGs in Hin. by apply elem_of_nil in Hin.
Qed.

Lemma processFile_sound P pre filename s s' :
  scanned P pre s → sound P s → processFile P filename s = Ok s' →
  sound P s'.
Proof.
  intros Hsc Hs Hrun.
  destruct (processFile_Ok_inv _ _ _ _ Hrun) as [node Hnode].
  rewrite (processFile_parsed _ _ _ _ Hnode) in Hrun. simpl in Hrun.
  injection Hrun as <-.
  set (s0 := setLocalPackageName "" (setErr None s)).
  eapply (sound_ext P (ast.Inspect _ node (snd (bundleOf P filename s0))));
    [done..|].
  apply Inspect_sound; unfold bundleOf; simpl;
    destruct (assetMap s !! Dir P filename) as [p|] eqn:Hl; simpl.
  - by apply (scanned_map _ _ _ Hsc).
  - rewrite fmap_app, lookup_app_r by (by rewrite length_fmap).
    by rewrite length_fmap, Nat.sub_diag.
  - by apply (sound_ext P s).
  - apply (newBundle_sound P filename (Dir P filename) s0).
    by apply (sound_ext P s).
Qed.

Lemma processFile_extends P filename s s' :
  processFile P filename s = Ok s' → extends s s'.
Proof.
  intros Hrun.
  destruct (processFile_Ok_inv _ _ _ _ Hrun) as [node Hnode].
  rewrite (processFile_parsed _ _ _ _ Hnode) in Hrun. simpl in Hrun.
  injection Hrun as <-.
  set (s0 := setLocalPackageName "" (setErr None s)).
  set (p := fst (bundleOf P filename s0)).
  set (s1 := snd (bundleOf P filename s0)).
  assert (extends s s1) as H01.
  { subst s1. unfold bundleOf. simpl.
    destruct (assetMap s !! Dir P filename); simpl.
    - apply (extends_ext s s); [done..|apply extends_refl].
    - split; [done|]. intros q b Hb. exists b. simpl.
      rewrite lookup_app_l by (by eapply lookup_lt_Some).
      repeat split; reflexivity || done. }
  pose proof (Inspect_extends P filename p node s1) as [Hr12 H12].
  eapply extends_trans; [exact H01|]. split.
  - simpl. by apply prefix_app_r.
  - done.
Qed.

Lemma scan_sound P fs : ∀ pre s s',
  scanned P pre s → sound P s → scan P fs s = Ok s' → sound P s'.
Proof.
  induction fs as [|f fs IH]; intros pre s s' Hsc Hs Hrun; simpl in Hrun.
  - by injection Hrun as <-.
  - destruct (processFile P f s) as [s1|e] eqn:Hf; [|done].
    eapply (IH (pre ++ [f])); [| |done].
    + by eapply processFile_scanned.
    + by eapply processFile_sound.
Qed.

Lemma scan_extends P fs : ∀ s s', scan P fs s = Ok s' → extends s s'.
Proof.
  induction fs as [|f fs IH]; intros s s' Hrun; simpl in Hrun.
  - injection Hrun as <-. apply extends_refl.
  - destruct (processFile P f s) as [s1|e] eqn:Hf; [|done].
    eapply extends_trans; [by eapply processFile_extends|by apply IH].
Qed.

Lemma sound_entry P : sound P entry.
Proof.
  split.
  - intros name g Hg. simpl in Hg. by rewrite lookup_empty in Hg.
  - intros q b a Hb. simpl in Hb. by rewrite lookup_nil in Hb.
  - intros q b g Hb. simpl in Hb. by rewrite lookup_nil in Hb.
Qed.

Lemma scan_entry_sound P fs s : scan P fs entry = Ok s → sound P s.
Proof.
  intros Hrun.
  by apply (scan_sound P fs [] entry s (scanned_entry P) (sound_entry P)).
Qed.

(** X7.  In every returned bundle, the name of an asset is its path, and
    it holds no double-quote character. *)
Theorem GetReferencedAssets_asset_named_by_path P fs b a :
  b ∈ objects (GetReferencedAssets P fs) → a ∈ Assets b →
  Name a = AssetPath a ∧ contains (Name a) dquote = false.
Proof.
  unfold GetReferencedAssets.
  destruct (scan P fs entry) as [s|e] eqn:Hrun; simpl;
    [|by intros ?%elem_of_nil].
  intros [q Hb]%list_elem_of_lookup_1 Ha.
  destruct (sound_assets _ _ (scan_entry_sound _ _ _ Hrun) _ _ _ Hb Ha)
    as (H1 & H2 & _). done.
Qed.

Lemma GetReferencedAssets_asset_named_by_path_witness :
  let a := {| Name := "x.txt"; AssetPath := "x.txt";
              AssetGroup := Some declaredGroup |} in
  Name a = AssetPath a ∧ contains (Name a) dquote = false.
Proof.
  apply (GetReferencedAssets_asset_named_by_path (unix home groupFiles)
           ["a/decl.go"]
           {| Caller := "a/decl.go"; PackageName := "a"; BaseDir := "a";
              Assets := [ {| Name := "x.txt"; AssetPath := "x.txt";
                             AssetGroup := Some declaredGroup |} ];
              Groups := [declaredGroup] |}).
  - apply list_elem_of_In. vm_compute. auto.
  - apply list_elem_of_In. simpl. auto.
Defined.

(** X8.  In every returned bundle, the group that owns an asset is a
    declared one: it is in the [Groups] of a returned bundle, and its name
    is not [mewn]. *)
Theorem GetReferencedAssets_owner_is_declared P fs b a g :
  b ∈ objects (GetReferencedAssets P fs) → a ∈ Assets b →
  AssetGroup a = Some g →
  GroupName g ≠ "mewn" ∧
  ∃ c, c ∈ objects (GetReferencedAssets P fs) ∧ g ∈ Groups c.
Proof.
  unfold GetReferencedAssets.
  destruct (scan P fs entry) as [s|e] eqn:Hrun; simpl;
    [|by intros ?%elem_of_nil].
  intros [q Hb]%list_elem_of_lookup_1 Ha Hg.
  destruct (sound_assets _ _ (scan_entry_sound _ _ _ Hrun) _ _ _ Hb Ha)
    as (_ & _ & Hown).
  destruct (Hown _ Hg) as (Hroot & q' & c & Hc & Hin).
  split; [done|]. exists c. split; [|done]. by eapply list_elem_of_lookup_2.
Qed.

Lemma GetReferencedAssets_owner_is_declared_witness :
  GroupName declaredGroup ≠ "mewn" ∧
  ∃ c, c ∈ objects (GetReferencedAssets (unix home groupFiles) ["a/decl.go"])
       ∧ declaredGroup ∈ Groups c.
Proof.
  apply (GetReferencedAssets_owner_is_declared (unix home groupFiles)
           ["a/decl.go"]
           {| Caller := "a/decl.go"; PackageName := "a"; BaseDir := "a";
              Assets := [ {| Name := "x.txt"; AssetPath := "x.txt";
                             AssetGroup := Some declaredGroup |} ];
              Groups := [declaredGroup] |}
           {| Name := "x.txt"; AssetPath := "x.txt";
              AssetGroup := Some declaredGroup |}).
  - apply list_elem_of_In. vm_compute. auto.
  - apply list_elem_of_In. simpl. auto.
  - reflexivity.
Defined.

(** X9.  In every returned bundle, the full path of a group is the
    absolute path of its local path joined to the directory of the bundle,
    and the local path holds no double-quote character. *)
Theorem GetReferencedAssets_group_path_resolved P fs b g :
  b ∈ objects (GetReferencedAssets P fs) → g ∈ Groups b →
  Abs P (Join P (BaseDir b) (LocalPath g)) = Ok (FullPath g) ∧
  contains (LocalPath g) dquote = false.
Proof.
  unfold GetReferencedAssets.
  destruct (scan P fs entry) as [s|e] eqn:Hrun; simpl;
    [|by intros ?%elem_of_nil].
  intros [q Hb]%list_elem_of_lookup_1 Hg.
  by apply (sound_groups _ _ (scan_entry_sound _ _ _ Hrun) _ _ _ Hb Hg).
Qed.

Lemma GetReferencedAssets_group_path_resolved_witness :
  let P := unix home groupFiles in
  Abs P (Join P "a" (LocalPath declaredGroup)) = Ok (FullPath declaredGroup) ∧
  contains (LocalPath declaredGroup) dquote = false.
Proof.
  apply (GetReferencedAssets_group_path_resolved (unix home groupFiles)
           ["a/decl.go"]
           {| Caller := "a/decl.go"; PackageName := "a"; BaseDir := "a";
              Assets := [ {| Name := "x.txt"; AssetPath := "x.txt";
                             AssetGroup := Some declaredGroup |} ];
              Groups := [declaredGroup] |} declaredGroup).
  - apply list_elem_of_In. vm_compute. auto.
  - apply list_elem_of_In. simpl. auto.
Defined.

(** X10.  More files at the end of the sequence only add: when the longer
    scan succeeds so does the shorter one, its result is a prefix of the
    longer result, and each of its bundles is found at the same place
    with the same [Caller] and [BaseDir], its assets and groups a prefix of
    the later ones. *)
Theorem GetReferencedAssets_more_files P fs gs :
  failure (GetReferencedAssets P (fs ++ gs)) = None →
  let r1 := GetReferencedAssets P fs in
  let r2 := GetReferencedAssets P (fs ++ gs) in
  failure r1 = None ∧ bundles r1 `prefix_of` bundles r2 ∧
  ∀ q b, objects r1 !! q = Some b →
    ∃ b', objects r2 !! q = Some b' ∧ Caller b' = Caller b ∧
          BaseDir b' = BaseDir b ∧ Assets b `prefix_of` Assets b' ∧
          Groups b `prefix_of` Groups b'.
Proof.
  unfold GetReferencedAssets. rewrite scan_app.
  destruct (scan P fs entry) as [s1|e1] eqn:Hrun1; [|done].
  destruct (scan P gs s1) as [s2|e2] eqn:Hrun2; [|done].
  intros _. simpl. destruct (scan_extends _ _ _ _ Hrun2) as [Hr Hh].
  split; [done|]. split; [done|]. exact Hh.
Qed.

Lemma GetReferencedAssets_more_files_witness :
  let P := unix home groupFiles in
  let r1 := GetReferencedAssets P ["a/decl.go"] in
  let r2 := GetReferencedAssets P (["a/decl.go"] ++ ["b/again.go"; "a/late.go"]) in
  failure r1 = None ∧ bundles r1 `prefix_of` bundles r2 ∧
  ∀ q b, objects r1 !! q = Some b →
    ∃ b', objects r2 !! q = Some b' ∧ Caller b' = Caller b ∧
          BaseDir b' = BaseDir b ∧ Assets b `prefix_of` Assets b' ∧
          Groups b `prefix_of` Groups b'.
Proof.
  apply (GetReferencedAssets_more_files (unix home groupFiles)
           ["a/decl.go"] ["b/again.go"; "a/late.go"]).
  vm_compute. reflexivity.
Defined.

(** ** The first and the last file of a directory *)

Lemma firstEncounter_elem dirs d : d ∈ firstEncounter dirs ↔ d ∈ dirs.
Proof.
  induction dirs as [|x dirs IH] using rev_ind; [done|].
  rewrite firstEncounter_snoc, elem_of_app, list_elem_of_singleton, <- IH.
  case_decide as Hx.
  - split; [auto|]. intros [?| ->]; done.
  - by rewrite elem_of_app, list_elem_of_singleton.
Qed.

Lemma firstFile_snoc P pre f b b' :
  Caller b' = Caller b → BaseDir b' = BaseDir b →
  firstFile P pre b → firstFile P (pre ++ [f]) b'.
Proof.
  intros HC HB (i & Hi & Hd & Hfirst). exists i. rewrite HC, HB.
  pose proof (lookup_lt_Some _ _ _ Hi) as Hlt.
  split; [by rewrite lookup_app_l|]. split; [done|].
  intros j g Hj Hg. rewrite lookup_app_l in Hg by lia. by eapply Hfirst.
Qed.

Lemma firstFile_new P pre f b :
  Caller b = f → BaseDir b = Dir P f →
  (∀ g, g ∈ pre → Dir P g ≠ Dir P f) → firstFile P (pre ++ [f]) b.
Proof.
  intros HC HB Hnew. exists (length pre). rewrite HC, HB.
  split; [by rewrite lookup_app_r, Nat.sub_diag|]. split; [done|].
  intros j g Hj Hg. rewrite lookup_app_l in Hg by done.
  apply Hnew. by eapply list_elem_of_lookup_2.
Qed.

Lemma lastFile_snoc_other P pre f b b' :
  BaseDir b' = BaseDir b → PackageName b' = PackageName b →
  Dir P f ≠ BaseDir b → lastFile P pre b → lastFile P (pre ++ [f]) b'.
Proof.
  intros HB HP Hother (i & g & node & Hi & Hd & Hnode & Hpk & Hlast).
  exists i, g, node. rewrite HB, HP.
  pose proof (lookup_lt_Some _ _ _ Hi) as Hlt.
  split; [by rewrite lookup_app_l|]. repeat split; [done..|].
  intros j g' Hj Hg'. apply lookup_app_Some in Hg' as [Hg'|[_ Hg']].
  - by eapply Hlast.
  - apply list_lookup_singleton_Some in Hg' as [_ <-]. done.
Qed.

Lemma lastFile_new P pre f node b :
  ParseFile P f = Ok node → BaseDir b = Dir P f →
  PackageName b = ast.Name node → lastFile P (pre ++ [f]) b.
Proof.
  intros Hnode HB HP. exists (length pre), f, node.
  split; [by rewrite lookup_app_r, Nat.sub_diag|]. repeat split; [done..|].
  intros j g Hj Hg. apply lookup_lt_Some in Hg.
  rewrite length_app in Hg. simpl in Hg. lia.
Qed.

Lemma processFile_provenance P pre filename s s' :
  scanned P pre s → provenance P pre s →
  processFile P filename s = Ok s' → provenance P (pre ++ [filename]) s'.
Proof.
  intros Hsc Hprov Hrun.
  destruct (processFile_Ok_inv _ _ _ _ Hrun) as [node Hnode].
  rewrite (processFile_parsed _ _ _ _ Hnode) in Hrun. simpl in Hrun.
  injection Hrun as <-.
  pose proof (scanned_NoDup _ _ _ Hsc) as Hnd.
  set (s0 := setLocalPackageName "" (setErr None s)).
  unfold bundleOf. simpl.
  destruct (assetMap s !! Dir P filename) as [p|] eqn:Hl; simpl.
  - apply (scanned_map _ _ _ Hsc) in Hl as Hp.
    rewrite list_lookup_fmap in Hp.
    destruct (heap s !! p) as [b0|] eqn:Hb0; [|done].
    simpl in Hp. injection Hp as Hd0.
    intros q b' Hb'. simpl in Hb'. destruct (decide (p = q)) as [<-|Hne].
    + destruct (Inspect_bundle P filename p node s0 b0 Hb0)
        as (b'' & Hb'' & HC & HB & HPk).
      rewrite Hb'' in Hb'. injection Hb' as <-.
      destruct (Hprov _ _ Hb0) as [Hfirst _]. split.
      * by eapply firstFile_snoc.
      * eapply lastFile_new; [done|congruence|done].
    + rewrite Inspect_lookup_ne in Hb' by done. simpl in Hb'.
      destruct (Hprov _ _ Hb') as [Hfirst Hlast]. split.
      * by eapply firstFile_snoc.
      * eapply lastFile_snoc_other; [done..| |done].
        intros Heq. apply Hne. eapply (NoDup_lookup _ _ _ _ Hnd).
        -- by rewrite list_lookup_fmap, Hb0; simpl; rewrite Hd0.
        -- by rewrite list_lookup_fmap, Hb'; simpl; rewrite Heq.
  - assert (Dir P filename ∉ BaseDir <$> heap s) as Hfresh.
    { intros [q Hq]%list_elem_of_lookup_1.
      apply (scanned_map _ _ _ Hsc) in Hq. congruence. }
    intros q b' Hb'. simpl in Hb'.
    destruct (decide (length (heap s) = q)) as [<-|Hne].
    + edestruct (Inspect_bundle P filename (length (heap s)) node
                   (snd (newBundle filename (Dir P filename) s0)))
        as (b'' & Hb'' & HC & HB & HPk).
      { simpl. by rewrite lookup_app_r, Nat.sub_diag. }
      assert (Some b'' = Some b') as [= <-]
        by (rewrite <- Hb'', <- Hb'; reflexivity).
      simpl in HC, HB. split.
      * apply firstFile_new; [done..|].
        intros g Hg Heq. apply Hfresh.
        rewrite (scanned_heap _ _ _ Hsc), firstEncounter_elem, <- Heq.
        apply list_elem_of_fmap. eauto.
      * by eapply lastFile_new.
    + rewrite Inspect_lookup_ne in Hb' by done. simpl in Hb'.
      apply lookup_app_Some in Hb' as [Hb'|[Hge Hb']].
      * destruct (Hprov _ _ Hb') as [Hfirst Hlast]. split.
        -- by eapply firstFile_snoc.
        -- eapply lastFile_snoc_other; [done..| |done].
           intros Heq. apply Hfresh. rewrite Heq.
           apply list_elem_of_fmap. exists b'. split; [done|].
           by eapply list_elem_of_lookup_2.
      * apply list_lookup_singleton_Some in Hb' as [Hz _]. lia.
Qed.

Lemma scan_provenance P fs : ∀ pre s s',
  scanned P pre s → provenance P pre s → scan P fs s = Ok s' →
  provenance P (pre ++ fs) s'.
Proof.
  induction fs as [|f fs IH]; intros pre s s' Hsc Hprov Hrun; simpl in Hrun.
  - injection Hrun as <-. by rewrite app_nil_r.
  - destruct (processFile P f s) as [s1|e] eqn:Hf; [|done].
    replace (pre ++ f :: fs) with ((pre ++ [f]) ++ fs)
      by (by rewrite <- app_assoc).
    eapply IH; [| |done].
    + by eapply processFile_scanned.
    + by eapply processFile_provenance.
Qed.

(** X11.  On the whole scan: the [Caller] of a returned bundle is the
    first file of the sequence that lies in the directory of the bundle,
    and its [PackageName] is the package name of the last such file. *)
Theorem GetReferencedAssets_first_Caller_last_PackageName P fs b :
  b ∈ objects (GetReferencedAssets P fs) →
  (∃ i, fs !! i = Some (Caller b) ∧ Dir P (Caller b) = BaseDir b ∧
        ∀ j f, j < i → fs !! j = Some f → Dir P f ≠ BaseDir b) ∧
  (∃ i f node, fs !! i = Some f ∧ Dir P f = BaseDir b ∧
        ParseFile P f = Ok node ∧ PackageName b = ast.Name node ∧
        ∀ j f', i < j → fs !! j = Some f' → Dir P f' ≠ BaseDir b).
Proof.
  unfold GetReferencedAssets.
  destruct (scan P fs entry) as [s|e] eqn:Hrun; simpl;
    [|by intros ?%elem_of_nil].
  intros [q Hb]%list_elem_of_lookup_1.
  assert (provenance P [] entry) as H0.
  { intros q' b' Hb'. simpl in Hb'. by rewrite lookup_nil in Hb'. }
  exact (scan_provenance P fs [] entry s (scanned_entry P) H0 Hrun q b Hb).
Qed.

Lemma GetReferencedAssets_first_Caller_last_PackageName_witness :
  let P := unix home twoInOneDir in
  let fs := ["a/x.go"; "b/z.go"; "a/x_test.go"] in
  let b := {| Caller := "a/x.go"; PackageName := "a_test"; BaseDir := "a";
              Assets := [ {| Name := "x.txt"; AssetPath := "x.txt";
                             AssetGroup := None |};
                          {| Name := "y.txt"; AssetPath := "y.txt";
                             AssetGroup := None |} ];
              Groups := [] |} in
  (∃ i, fs !! i = Some (Caller b) ∧ Dir P (Caller b) = BaseDir b ∧
        ∀ j f, j < i → fs !! j = Some f → Dir P f ≠ BaseDir b) ∧
  (∃ i f node, fs !! i = Some f ∧ Dir P f = BaseDir b ∧
        ParseFile P f = Ok node ∧ PackageName b = ast.Name node ∧
        ∀ j f', i < j → fs !! j = Some f' → Dir P f' ≠ BaseDir b).
Proof.
  apply (GetReferencedAssets_first_Caller_last_PackageName
           (unix home twoInOneDir) ["a/x.go"; "b/z.go"; "a/x_test.go"]).
  apply list_elem_of_In. vm_compute. auto.
Defined.

Lemma Inspect_length P filename p file s :
  length (heap (ast.Inspect (visit P filename p) file s)) = length (heap s).
Proof.
  pose proof (Inspect_layout P filename p file s) as HL.
  unfold layout in HL. injection HL as HC _ _ _.
  apply (f_equal length) in HC. by rewrite !length_fmap in HC.
Qed.

Lemma Inspect_result P filename p file s :
  result (ast.Inspect (visit P filename p) file s) = result s.
Proof.
  pose proof (Inspect_layout P filename p file s) as HL.
  unfold layout in HL. by injection HL as _ _ _ HR.
Qed.

Lemma processFile_listed P filename s s' :
  listed s → processFile P filename s = Ok s' → listed s'.
Proof.
  intros Hlisted Hrun.
  destruct (processFile_Ok_inv _ _ _ _ Hrun) as [node Hnode].
  rewrite (processFile_parsed _ _ _ _ Hnode) in Hrun. simpl in Hrun.
  injection Hrun as <-.
  intros q. simpl. rewrite Inspect_length, Inspect_result.
  unfold bundleOf. simpl.
  destruct (assetMap s !! Dir P filename) as [p|]; simpl; intros Hq.
  - apply elem_of_app. left. by apply Hlisted.
  - rewrite length_app in Hq. simpl in Hq. apply elem_of_app.
    destruct (decide (q = length (heap s))) as [->|Hne].
    + right. by apply list_elem_of_singleton.
    + left. apply Hlisted. lia.
Qed.

Lemma scan_listed P fs : ∀ s s', listed s → scan P fs s = Ok s' → listed s'.
Proof.
  induction fs as [|f fs IH]; intros s s' Hl Hrun; simpl in Hrun.
  - by injection Hrun as <-.
  - destruct (processFile P f s) as [s1|e] eqn:Hf; [|done].
    eapply IH; [|done]. by eapply processFile_listed.
Qed.

(** X12.  When the scan succeeds, the returned list points at bundle
    objects that exist, and every bundle object made during the scan is
    in the returned list.  (When it fails the function returns nil, and
    the bundles made for the files before the failing one are dropped.) *)
Theorem GetReferencedAssets_lists_every_bundle P fs s q :
  scan P fs entry = Ok s →
  objects (GetReferencedAssets P fs) = heap s ∧
  bundles (GetReferencedAssets P fs) = result s ∧
  (q < length (heap s) ↔ q ∈ bundles (GetReferencedAssets P fs)).
Proof.
  intros Hrun. unfold GetReferencedAssets. rewrite Hrun. simpl.
  split; [done|]. split; [done|]. split.
  - apply (scan_listed P fs entry s); [|done]. intros q'. simpl. lia.
  - intros [i Hi]%list_elem_of_lookup_1.
    pose proof (scan_scanned P fs [] entry s (scanned_entry P) Hrun) as Hs.
    destruct (Forall2_lookup_r _ _ _ _ _ (scanned_result _ _ _ Hs) Hi)
      as (f & _ & Hq).
    apply lookup_lt_Some in Hq. by rewrite length_fmap in Hq.
Qed.

Lemma GetReferencedAssets_lists_every_bundle_witness :
  let P := unix home twoInOneDir in
  let fs := ["a/x.go"; "b/z.go"; "a/x_test.go"] in
  let s := match scan P fs entry with Ok s => s | Failed _ => entry end in
  objects (GetReferencedAssets P fs) = heap s ∧
  bundles (GetReferencedAssets P fs) = result s ∧
  (1 < length (heap s) ↔ 1 ∈ bundles (GetReferencedAssets P fs)).
Proof.
  apply (GetReferencedAssets_lists_every_bundle (unix home twoInOneDir)
           ["a/x.go"; "b/z.go"; "a/x_test.go"]).
  vm_compute. reflexivity.
Defined.

(** A failing scan does drop the bundle made for the file before the bad
    one: the loop has made it, and the function returns nil. *)
Example bundles_dropped_on_failure :
  let P := unix home withBadFile in
  (∃ s, scan P ["a/x.go"] entry = Ok s ∧ length (heap s) = 1) ∧
  bundles (GetReferencedAssets P ["a/x.go"; "a/bad.go"]) = [].
Proof.
  split; [eexists; split; [reflexivity|]|]; vm_compute; reflexivity.
Qed.

(** X13.  Except for a declaration of a group, the left-hand side of a
    statement has no part in what the visitor does: two statements with
    the same right-hand side and any left-hand sides have the same
    effect. *)
Theorem visit_ignores_target P filename p s Lhs Lhs' Rhs :
  (∀ a, ParseAssignment Lhs Rhs = Some a →
        Obj (RHS a) = "mewn" → Method (RHS a) ≠ "Group") →
  visit P filename p (Some (ast.NTree (ast.AssignStmt Lhs Rhs))) s
  = visit P filename p (Some (ast.NTree (ast.AssignStmt Lhs' Rhs))) s.
Proof.
  unfold visit, ParseAssignment. intros Hng.
  destruct Rhs as [|[| | |Fun Args| |] [|? ?]]; try done.
  destruct (ParseCallExpr Fun Args) as [c|] eqn:Hc; [|done]. simpl in *.
  destruct (decide (Obj c = "mewn")) as [Hobj|Hobj]; [|done].
  destruct (decide (Method c = "Group")) as [Hm|Hm]; [|done].
  by destruct (Hng _ eq_refl Hobj).
Qed.

Lemma visit_ignores_target_witness :
  let P := unix home sameNameTwice in
  let Rhs := [call "mewn" "String" "a.txt"] in
  visit P "a/x.go" 0 (Some (ast.NTree (ast.AssignStmt [ast.Ident "s"] Rhs)))
    afterDeclaration
  = visit P "a/x.go" 0
      (Some (ast.NTree
               (ast.AssignStmt [ast.SelectorExpr (ast.Ident "cfg") "logo"]
                  Rhs)))
      afterDeclaration.
Proof.
  apply (visit_ignores_target (unix home sameNameTwice) "a/x.go" 0
           afterDeclaration [ast.Ident "s"]
           [ast.SelectorExpr (ast.Ident "cfg") "logo"]
           [call "mewn" "String" "a.txt"]).
  intros a [= <-] _. simpl. discriminate.
Defined.
